(** * xt: generic XML node trees with an XML token codec and a JSON codec

    Shallow embedding of [xt.go] (package [xt]) and the properties of its
    specification.

    Modelling conventions.

    - A Go [string] is a [string]; the byte-level layers of [encoding/json]
      and [encoding/xml] (escaping, UTF-8 coercion, indentation, nesting
      limits of the scanners) are outside the model.  A JSON document is
      the value it parses to ([JSON]); an XML document is the sequence of
      [xml.Token]s the tokenizer yields for it.
    - A Go slice is a [slice]: [nil], or a possibly empty list of elements.
      The distinction is visible to [reflect.DeepEqual], which is the
      equality the tests of the package use ([require.Equal]); the expected
      trees of [xt_test.go] spell out [Attrs: []Attr{}] for that reason.
    - [*xml.Decoder] is a pull source of tokens, [*xml.Encoder] a sink of
      tokens.  [dec.DecodeElement(&elem, &tok)] and [enc.Encode(node)] are
      the dispatch of [encoding/xml] to the [UnmarshalXML] and [MarshalXML]
      methods of the value.
    - A method with a pointer receiver takes the receiver's value and
      returns the updated one; a method with a value receiver takes it and
      returns none, so that the caller's value is untouched by construction.
*)

From Stdlib Require Import String Ascii List Arith Lia Bool.
Import ListNotations.
Open Scope string_scope.
Open Scope list_scope.

Set Implicit Arguments.
Set Warnings "-register-all".

(* ================================================================== *)
(** ** Go slices *)

Inductive slice (A : Type) : Type :=
| nil_slice : slice A
| make_slice (elems : list A) : slice A.

Arguments nil_slice {A}.
Arguments make_slice {A} elems.

(** The elements of a slice, as [range] visits them. *)
Definition elems {A} (s : slice A) : list A :=
  match s with
  | nil_slice => []
  | make_slice l => l
  end.

Definition len {A} (s : slice A) : nat := length (elems s).

(** [append(s, x)]: the result is never nil. *)
Definition append {A} (s : slice A) (x : A) : slice A :=
  make_slice (elems s ++ [x]).

(** Element-wise reinterpretation of a slice; nil stays nil. *)
Definition slice_map {A B} (f : A -> B) (s : slice A) : slice B :=
  match s with
  | nil_slice => nil_slice
  | make_slice l => make_slice (map f l)
  end.

(* ================================================================== *)
(** ** The collaborators' data: [encoding/xml] tokens, JSON values *)

Module xml.

Record Name := mkName { Space : string; Local : string }.

Record Attr := mkAttr { AttrName : Name; Value : string }.

(** [xml.Token] is an empty interface; the tokenizer yields the first six
    kinds, [OtherToken] stands for any other dynamic value (nil, a
    pointer to a token, ...), described by its [%#v] rendering. *)
Inductive Token :=
| StartElement (name : Name) (attr : slice Attr)
| EndElement (name : Name)
| CharData (data : string)
| Comment (data : string)
| ProcInst (target : string) (inst : string)
| Directive (data : string)
| OtherToken (repr : string).

(** [start.End()] *)
Definition End (name : Name) : Token := EndElement name.

End xml.

Inductive JSON :=
| JNull
| JBool (b : bool)
| JNumber (literal : string)
| JString (s : string)
| JArray (items : list JSON)
| JObject (members : list (string * JSON)).

(* ================================================================== *)
(** ** Errors *)

Inductive error :=
(** [io.EOF] *)
| io_EOF
(** an error of the token source or of the sink *)
| ErrExternal (msg : string)
(** an error that wraps another ([%w]) *)
| ErrWrap (msg : string) (cause : error)
(** [can't encode XML processing instruction with empty target] *)
| ErrPiEmptyTarget
(** [can't XML-encode %T with empty name], with the rendering of [%T] *)
| ErrEmptyName (type_name : string)
(** [unexpected XML token %#v] *)
| ErrUnexpectedToken (tok : xml.Token)
(** [required field "type" is missing in %q], with the raw input *)
| ErrTypeMissing (input : JSON)
(** [unrecognized node type %q] *)
| ErrUnrecognizedType (typ : string)
(** [*json.UnmarshalTypeError]: a JSON value of kind [value] met where the
    Go type [go_type] was expected *)
| ErrUnmarshalType (value : string) (go_type : string).

(** The messages of the errors whose text does not depend on a formatted
    value. *)
Definition Error (e : error) : option string :=
  match e with
  | io_EOF => Some "EOF"
  | ErrPiEmptyTarget =>
      Some "can't encode XML processing instruction with empty target"
  | ErrEmptyName t => Some ("can't XML-encode " ++ t ++ " with empty name")%string
  | _ => None
  end.

(** [errors.Is(err, io.EOF)] *)
Fixpoint errors_Is_EOF (err : error) : bool :=
  match err with
  | io_EOF => true
  | ErrWrap _ cause => errors_Is_EOF cause
  | _ => false
  end.

Inductive result (A : Type) : Type :=
| Ok (a : A)
| Err (e : error).

Arguments Ok {A} a.
Arguments Err {A} e.

(* ================================================================== *)
(** ** Node model *)

Definition TypePi := "pi".
Definition TypeDecl := "decl".
Definition TypeComment := "comment".
Definition TypeText := "text".
Definition TypeElem := "elem".

Record Name := mkName { Name_Space : string; Name_Local : string }.

Record Attr := mkAttr { Attr_Name : Name; Attr_Value : string }.

Record Pi := mkPi { Pi_Target : string; Pi_Content : string }.

Definition Decl := string.
Definition Comment := string.
Definition Text := string.

(** [Node] is the interface; its dynamic types are the five node kinds.
    ([Nodes] has no [MarshalJSON] and therefore does not implement [Node].) *)
Inductive Node :=
| NodePi (val : Pi)
| NodeDecl (val : Decl)
| NodeComment (val : Comment)
| NodeText (val : Text)
| NodeElem (val : Elem)
with Elem :=
| mkElem (name : Name) (attrs : slice Attr) (nodes : slice Node).

Definition Nodes := slice Node.

Definition Elem_Name (e : Elem) : Name := let '(mkElem n _ _) := e in n.
Definition Elem_Attrs (e : Elem) : slice Attr := let '(mkElem _ a _) := e in a.
Definition Elem_Nodes (e : Elem) : Nodes := let '(mkElem _ _ ns) := e in ns.

(** The zero value [Elem{}]. *)
Definition Elem_zero : Elem := mkElem (mkName "" "") nil_slice nil_slice.

(** [Name(start.Name)] and [xml.Name(self.Name)]: conversions between
    types of identical layout. *)
Definition Name_from (n : xml.Name) : Name :=
  mkName (xml.Space n) (xml.Local n).

Definition Name_to (n : Name) : xml.Name :=
  xml.mkName (Name_Space n) (Name_Local n).

Definition Attr_from (a : xml.Attr) : Attr :=
  mkAttr (Name_from (xml.AttrName a)) (xml.Value a).

Definition Attr_to (a : Attr) : xml.Attr :=
  xml.mkAttr (Name_to (Attr_Name a)) (Attr_Value a).

(** The slice header is reinterpreted; elements, order and nil-ness stay. *)
Definition attrsFrom (attrs : slice xml.Attr) : slice Attr :=
  slice_map Attr_from attrs.

Definition attrsTo (attrs : slice Attr) : slice xml.Attr :=
  slice_map Attr_to attrs.

Fixpoint hasExactAttr_range (attrs : list Attr) (space local value : string)
  : bool :=
  match attrs with
  | [] => false
  | attr :: rest =>
      if (Name_Space (Attr_Name attr) =? space)
         && (Name_Local (Attr_Name attr) =? local)
         && (Attr_Value attr =? value)
      then true
      else hasExactAttr_range rest space local value
  end.

Definition hasExactAttr (attrs : slice Attr) (space local value : string)
  : bool :=
  hasExactAttr_range (elems attrs) space local value.

(* ================================================================== *)
(** ** Markup encoder *)

Section MarkupEncoder.

(** The sink behind [*xml.Encoder]: after the tokens written so far it
    accepts the next token or refuses it with an error. *)
Variable sink : list xml.Token -> xml.Token -> option error.

(** The state of the encoder is the sequence of tokens written to it. *)
Definition Encoder := list xml.Token.

(** An encoding step: the new encoder state and the returned [error]. *)
Definition Enc := Encoder -> Encoder * option error.

Definition EncodeToken (tok : xml.Token) : Enc :=
  fun enc =>
    match sink enc tok with
    | Some err => (enc, Some err)
    | None => (enc ++ [tok], None)
    end.

(** [return err] *)
Definition fail (err : error) : Enc := fun enc => (enc, Some err).

(** [return nil] *)
Definition done : Enc := fun enc => (enc, None).

(** [err := m; if err != nil { return err }; k] *)
Definition and_then (m k : Enc) : Enc :=
  fun enc =>
    let '(enc1, err) := m enc in
    match err with
    | Some e => (enc1, Some e)
    | None => k enc1
    end.

Notation "m ;; k" := (and_then m k) (at level 61, right associativity).

(** [for _, x := range xs { err := body(x); if err != nil { return err } };
    return nil] *)
Fixpoint range_Enc {A} (body : A -> Enc) (xs : list A) : Enc :=
  match xs with
  | [] => done
  | x :: rest => body x ;; range_Enc body rest
  end.

Definition Pi_MarshalXML (self : Pi) : Enc :=
  if Pi_Target self =? "" then fail ErrPiEmptyTarget
  else EncodeToken (xml.ProcInst (Pi_Target self) (Pi_Content self)).

Definition Decl_MarshalXML (self : Decl) : Enc :=
  EncodeToken (xml.Directive self).

Definition Comment_MarshalXML (self : Comment) : Enc :=
  EncodeToken (xml.Comment self).

Definition Text_MarshalXML (self : Text) : Enc :=
  EncodeToken (xml.CharData self).

(** The local copy of the receiver after the namespace workaround of
    [Elem.MarshalXML]. *)
Definition Elem_effective_Name (name : Name) (attrs : slice Attr) : Name :=
  if hasExactAttr attrs "" "xmlns" (Name_Space name)
  then mkName "" (Name_Local name)
  else name.

(** [enc.Encode(node)] is [Node_MarshalXML]: the node's own [MarshalXML]. *)
Fixpoint Node_MarshalXML (node : Node) : Enc :=
  match node with
  | NodePi val => Pi_MarshalXML val
  | NodeDecl val => Decl_MarshalXML val
  | NodeComment val => Comment_MarshalXML val
  | NodeText val => Text_MarshalXML val
  | NodeElem val => Elem_MarshalXML val
  end
with Elem_MarshalXML (self : Elem) : Enc :=
  match self with
  | mkElem name attrs nodes =>
      if Name_Local name =? "" then fail (ErrEmptyName "xt.Elem")
      else
        let name' := Elem_effective_Name name attrs in
        EncodeToken (xml.StartElement (Name_to name') (attrsTo attrs)) ;;
        match nodes with
        | nil_slice => done
        | make_slice l => range_Enc Node_MarshalXML l
        end ;;
        EncodeToken (xml.End (Name_to name'))
  end.

Definition Nodes_MarshalXML (self : Nodes) : Enc :=
  range_Enc Node_MarshalXML (elems self).

End MarkupEncoder.

(* ================================================================== *)
(** ** Decoder *)

(** What the token source yields on one pull. *)
Inductive event :=
| SrcToken (tok : xml.Token)
| SrcError (err : error).

(** The state of [*xml.Decoder]: what the source still has to yield.  An
    exhausted source answers [io.EOF]. *)
Definition Decoder := list event.

(** [tok, err := dec.Token()] *)
Definition Token (dec : Decoder) : result xml.Token * Decoder :=
  match dec with
  | [] => (Err io_EOF, [])
  | SrcToken tok :: rest => (Ok tok, rest)
  | SrcError err :: rest => (Err err, rest)
  end.

(** The outcome of a decoding call: [None] when the recursion budget of the
    model ran out, otherwise the returned value or error and the decoder
    state left behind. *)
Definition decoding (A : Type) : Type := option (result A * Decoder).

(** [DecodeToken], over the element decoder that [dec.DecodeElement]
    dispatches to for a fresh [var elem Elem]. *)
Definition DecodeToken_with
    (DecodeElement : Decoder -> xml.Name -> slice xml.Attr -> decoding Elem)
    (dec : Decoder) (tok : xml.Token) : decoding Node :=
  match tok with
  | xml.ProcInst target inst => Some (Ok (NodePi (mkPi target inst)), dec)
  | xml.Directive data => Some (Ok (NodeDecl data), dec)
  | xml.Comment data => Some (Ok (NodeComment data), dec)
  | xml.CharData data => Some (Ok (NodeText data), dec)
  | xml.StartElement name attr =>
      match DecodeElement dec name attr with
      | None => None
      | Some (Err err, dec') => Some (Err err, dec')
      | Some (Ok elem, dec') => Some (Ok (NodeElem elem), dec')
      end
  | _ => Some (Err (ErrUnexpectedToken tok), dec)
  end.

(** [Nodes.DecodeToken] *)
Definition Nodes_DecodeToken_with
    (DecodeElement : Decoder -> xml.Name -> slice xml.Attr -> decoding Elem)
    (self : Nodes) (dec : Decoder) (tok : xml.Token) : decoding Nodes :=
  match DecodeToken_with DecodeElement dec tok with
  | None => None
  | Some (Err err, dec') => Some (Err err, dec')
  | Some (Ok node, dec') => Some (Ok (append self node), dec')
  end.

(** [Elem.UnmarshalXML] and its [for] loop, with a recursion budget. *)
Fixpoint Elem_UnmarshalXML_fuel (fuel : nat) (self : Elem) (dec : Decoder)
    (start_Name : xml.Name) (start_Attr : slice xml.Attr) : decoding Elem :=
  match fuel with
  | 0 => None
  | S fuel' =>
      Elem_loop_fuel fuel'
        (mkElem (Name_from start_Name) (attrsFrom start_Attr) (Elem_Nodes self))
        dec
  end
with Elem_loop_fuel (fuel : nat) (self : Elem) (dec : Decoder)
    : decoding Elem :=
  match fuel with
  | 0 => None
  | S fuel' =>
      match Token dec with
      | (Err err, dec1) =>
          if errors_Is_EOF err then Some (Ok self, dec1)
          else Some (Err err, dec1)
      | (Ok tok, dec1) =>
          match tok with
          | xml.EndElement _ => Some (Ok self, dec1)
          | _ =>
              match Nodes_DecodeToken_with
                      (Elem_UnmarshalXML_fuel fuel' Elem_zero)
                      (Elem_Nodes self) dec1 tok with
              | None => None
              | Some (Err err, dec2) => Some (Err err, dec2)
              | Some (Ok nodes, dec2) =>
                  Elem_loop_fuel fuel'
                    (mkElem (Elem_Name self) (Elem_Attrs self) nodes) dec2
              end
          end
      end
  end.

(** A budget that the recursion cannot exhaust: every iteration and every
    nested element consumes a pull of the finite source. *)
Definition budget (dec : Decoder) : nat := 2 * length dec + 2.

Definition Elem_UnmarshalXML (self : Elem) (dec : Decoder)
    (start_Name : xml.Name) (start_Attr : slice xml.Attr) : decoding Elem :=
  Elem_UnmarshalXML_fuel (budget dec) self dec start_Name start_Attr.

Definition DecodeToken (dec : Decoder) (tok : xml.Token) : decoding Node :=
  DecodeToken_with (Elem_UnmarshalXML Elem_zero) dec tok.


(** [Nodes.Decode] *)
Fixpoint Nodes_Decode_fuel (fuel : nat) (self : Nodes) (dec : Decoder)
    : decoding Nodes :=
  match fuel with
  | 0 => None
  | S fuel' =>
      match Token dec with
      | (Err err, dec1) =>
          if errors_Is_EOF err then Some (Ok self, dec1)
          else Some (Err err, dec1)
      | (Ok tok, dec1) =>
          match DecodeToken dec1 tok with
          | None => None
          | Some (Err err, dec2) => Some (Err err, dec2)
          | Some (Ok node, dec2) =>
              Nodes_Decode_fuel fuel' (append self node) dec2
          end
      end
  end.

Definition Nodes_Decode (self : Nodes) (dec : Decoder) : decoding Nodes :=
  Nodes_Decode_fuel (S (length dec)) self dec.

(** [Nodes.UnmarshalXML] *)
Definition Nodes_UnmarshalXML (self : Nodes) (dec : Decoder)
    (_ : xml.Name * slice xml.Attr) : decoding Nodes :=
  Nodes_Decode self dec.

(* ================================================================== *)
(** ** JSON codec: encoding *)

(** [json.Marshal] of the package's structs, by their tags: the fields in
    the order of declaration, the fields of an embedded struct in its
    place; [omitempty] leaves out a string that is empty and a slice of
    length zero, and has no effect on a field of struct type.  None of the
    types involved has a value that [json.Marshal] refuses. *)

(** A string field tagged [omitempty]: left out when empty. *)
Definition omitempty_string (key : string) (s : string)
    : list (string * JSON) :=
  if s =? "" then [] else [(key, JString s)].

(** [json.Marshal] of the elements of a slice, in order; the first error of
    an element's marshaller is returned. *)
Fixpoint json_Marshal_range {A} (marshal : A -> result JSON) (xs : list A)
    : result (list JSON) :=
  match xs with
  | [] => Ok []
  | x :: rest =>
      match marshal x with
      | Err err => Err err
      | Ok j =>
          match json_Marshal_range marshal rest with
          | Err err => Err err
          | Ok js => Ok (j :: js)
          end
      end
  end.

(** A slice field tagged [omitempty]: left out when its length is zero,
    nil or not. *)
Definition omitempty_slice {A} (key : string) (marshal : A -> result JSON)
    (s : slice A) : result (list (string * JSON)) :=
  match s with
  | nil_slice => Ok []
  | make_slice [] => Ok []
  | make_slice l =>
      match json_Marshal_range marshal l with
      | Err err => Err err
      | Ok js => Ok [(key, JArray js)]
      end
  end.

(** [Name]: both fields [omitempty]. *)
Definition json_Marshal_Name (n : Name) : result JSON :=
  Ok (JObject (omitempty_string "space" (Name_Space n)
               ++ omitempty_string "local" (Name_Local n))).

(** [Attr]: [omitempty] has no effect on the struct-typed field [name]. *)
Definition json_Marshal_Attr (a : Attr) : result JSON :=
  match json_Marshal_Name (Attr_Name a) with
  | Err err => Err err
  | Ok name =>
      Ok (JObject ([("name", name)] ++ omitempty_string "value" (Attr_Value a)))
  end.

Record typeHead := mk_typeHead { typeHead_Type : string }.

(** The members that the embedded [typeHead] contributes. *)
Definition typeHead_members (head : typeHead) : list (string * JSON) :=
  omitempty_string "type" (typeHead_Type head).

Definition jsonMarshalContent (typ : string) (content : string)
    : result JSON :=
  Ok (JObject (typeHead_members (mk_typeHead typ)
               ++ omitempty_string "content" content)).

Definition Pi_MarshalJSON (self : Pi) : result JSON :=
  Ok (JObject (typeHead_members (mk_typeHead TypePi)
               ++ omitempty_string "target" (Pi_Target self)
               ++ omitempty_string "content" (Pi_Content self))).

Definition Decl_MarshalJSON (self : Decl) : result JSON :=
  jsonMarshalContent TypeDecl self.

Definition Comment_MarshalJSON (self : Comment) : result JSON :=
  jsonMarshalContent TypeComment self.

Definition Text_MarshalJSON (self : Text) : result JSON :=
  jsonMarshalContent TypeText self.

(** The marshaller of the dynamic value of a [Node], and
    [Elem.MarshalJSON]: [typeHead] and the three fields of [inner]. *)
Fixpoint Node_MarshalJSON (node : Node) : result JSON :=
  match node with
  | NodePi val => Pi_MarshalJSON val
  | NodeDecl val => Decl_MarshalJSON val
  | NodeComment val => Comment_MarshalJSON val
  | NodeText val => Text_MarshalJSON val
  | NodeElem val => Elem_MarshalJSON val
  end
with Elem_MarshalJSON (self : Elem) : result JSON :=
  match self with
  | mkElem name attrs nodes =>
      match json_Marshal_Name name with
      | Err err => Err err
      | Ok jname =>
          match omitempty_slice "attrs" json_Marshal_Attr attrs with
          | Err err => Err err
          | Ok jattrs =>
              match omitempty_slice "nodes" Node_MarshalJSON nodes with
              | Err err => Err err
              | Ok jnodes =>
                  Ok (JObject (typeHead_members (mk_typeHead TypeElem)
                               ++ [("name", jname)] ++ jattrs ++ jnodes))
              end
          end
      end
  end.


(* ================================================================== *)
(** ** JSON codec: decoding *)

(** The package decodes through [json.Unmarshal] into its structs and into
    values with an [UnmarshalJSON] method.  The rules of [encoding/json]
    for these targets are modelled as documented: the members of an object
    are taken in order; a key selects the field with that JSON name,
    exactly or else case-insensitively, and a member that selects no field
    is skipped; [null] leaves a string or a struct as it is and makes a
    slice nil; an array resets a slice and appends its elements, [[]]
    giving an empty slice that is not nil; a field that is absent keeps
    the value it had, the zero value for a fresh variable. *)

(** One call of [json.Unmarshal].  A value of the wrong kind for its target
    is recorded (the first such error is kept) and decoding goes on; an
    error returned by an [UnmarshalJSON] method stops the call. *)
Inductive outcome (A : Type) : Type :=
| Abort (err : error)
| Done (a : A) (saved : option error).

Arguments Abort {A} err.
Arguments Done {A} a saved.

Definition Unm (A : Type) : Type := option error -> outcome A.

Definition ret {A} (a : A) : Unm A := fun saved => Done a saved.

Definition bind {A B} (m : Unm A) (k : A -> Unm B) : Unm B :=
  fun saved =>
    match m saved with
    | Abort err => Abort err
    | Done a saved' => k a saved'
    end.

Notation "x <- m ;; k" := (bind m (fun x => k))
  (at level 61, m at next level, right associativity).

(** [d.saveError(err)] *)
Definition saveError (err : error) : Unm unit :=
  fun saved =>
    match saved with
    | None => Done tt (Some err)
    | Some _ => Done tt saved
    end.

Definition abort {A} (err : error) : Unm A := fun _ => Abort err.

(** The [error] that [json.Unmarshal] returns, and the value when there is
    none. *)
Definition json_Unmarshal {A} (m : Unm A) : result A :=
  match m None with
  | Abort err => Err err
  | Done _ (Some err) => Err err
  | Done a None => Ok a
  end.

Definition json_kind (v : JSON) : string :=
  match v with
  | JNull => "null"
  | JBool _ => "bool"
  | JNumber _ => "number"
  | JString _ => "string"
  | JArray _ => "array"
  | JObject _ => "object"
  end.

(** Case folding of an object key: ASCII letters, and the two other
    letters that fold to ASCII ones, U+017F to [s] and U+212A to [k]. *)
Definition fold_ascii (c : ascii) : ascii :=
  let n := nat_of_ascii c in
  if ((65 <=? n) && (n <=? 90))%nat then ascii_of_nat (n + 32) else c.

Fixpoint foldName (key : string) : string :=
  match key with
  | EmptyString => EmptyString
  | String c rest =>
      match rest with
      | String c1 rest1 =>
          if (nat_of_ascii c =? 197)%nat && (nat_of_ascii c1 =? 191)%nat
          then String "s" (foldName rest1)
          else
            match rest1 with
            | String c2 rest2 =>
                if (nat_of_ascii c =? 226)%nat && (nat_of_ascii c1 =? 132)%nat
                   && (nat_of_ascii c2 =? 170)%nat
                then String "k" (foldName rest2)
                else String (fold_ascii c) (foldName rest)
            | EmptyString => String (fold_ascii c) (foldName rest)
            end
      | EmptyString => String (fold_ascii c) EmptyString
      end
  end.

(** Does the key of a member select the struct field with this JSON name?
    An exact match, or failing that a case-insensitive one. *)
Definition field_match (key name : string) : bool :=
  (key =? name) || (foldName key =? foldName name).

(** Decoding into a [string]. *)
Definition into_string (v : JSON) (old : string) : Unm string :=
  match v with
  | JString s => ret s
  | JNull => ret old
  | _ => _ <- saveError (ErrUnmarshalType (json_kind v) "string") ;; ret old
  end.

(** The members of an object, in order, each decoded into the struct. *)
Fixpoint members_range {T} (field : string -> JSON -> T -> Unm T)
    (members : list (string * JSON)) (t : T) : Unm T :=
  match members with
  | [] => ret t
  | (key, val) :: rest =>
      t' <- field key val t ;; members_range field rest t'
  end.

(** Decoding into a struct, given what a member does to it.  Members whose
    key selects no field are skipped. *)
Definition into_struct {T} (go_type : string)
    (field : string -> JSON -> T -> Unm T) (v : JSON) (old : T) : Unm T :=
  match v with
  | JObject members => members_range field members old
  | JNull => ret old
  | _ => _ <- saveError (ErrUnmarshalType (json_kind v) go_type) ;; ret old
  end.

Fixpoint items_range {T} (elem : JSON -> Unm T) (items : list JSON)
    : Unm (list T) :=
  match items with
  | [] => ret []
  | item :: rest =>
      t <- elem item ;; ts <- items_range elem rest ;; ret (t :: ts)
  end.

(** Decoding into a slice: the slice is reset and each element of the array
    appended; [null] gives nil, [[]] an empty slice that is not nil. *)
Definition into_slice {T} (go_type : string) (elem : JSON -> Unm T)
    (v : JSON) (old : slice T) : Unm (slice T) :=
  match v with
  | JArray items => ts <- items_range elem items ;; ret (make_slice ts)
  | JNull => ret nil_slice
  | _ => _ <- saveError (ErrUnmarshalType (json_kind v) go_type) ;; ret old
  end.

(** Decoding into a value whose pointer has an [UnmarshalJSON] method: the
    method is given the raw value, whatever its kind. *)
Definition into_Unmarshaler {T} (UnmarshalJSON : JSON -> result T) (v : JSON)
    : Unm T :=
  match UnmarshalJSON v with
  | Ok t => ret t
  | Err err => abort err
  end.

Definition typeHead_field (key : string) (val : JSON) (head : typeHead)
    : Unm typeHead :=
  if field_match key "type"
  then s <- into_string val (typeHead_Type head) ;; ret (mk_typeHead s)
  else ret head.

Definition Name_field (key : string) (val : JSON) (n : Name) : Unm Name :=
  if field_match key "space"
  then s <- into_string val (Name_Space n) ;; ret (mkName s (Name_Local n))
  else if field_match key "local"
  then s <- into_string val (Name_Local n) ;; ret (mkName (Name_Space n) s)
  else ret n.

Definition Attr_field (key : string) (val : JSON) (a : Attr) : Unm Attr :=
  if field_match key "name"
  then n <- into_struct "xt.Name" Name_field val (Attr_Name a) ;;
       ret (mkAttr n (Attr_Value a))
  else if field_match key "value"
  then s <- into_string val (Attr_Value a) ;; ret (mkAttr (Attr_Name a) s)
  else ret a.

Definition Pi_field (key : string) (val : JSON) (p : Pi) : Unm Pi :=
  if field_match key "target"
  then s <- into_string val (Pi_Target p) ;; ret (mkPi s (Pi_Content p))
  else if field_match key "content"
  then s <- into_string val (Pi_Content p) ;; ret (mkPi (Pi_Target p) s)
  else ret p.

(** The anonymous struct of [jsonUnmarshalContent]: a pointer field that
    starts out pointing to [out].  [null] sets the pointer to nil, after
    which a string goes to a fresh allocation and not to [out]. *)
Record contentRef := mk_contentRef { out : string; attached : bool }.

Definition contentRef_field (key : string) (val : JSON) (r : contentRef)
    : Unm contentRef :=
  if field_match key "content"
  then
    match val with
    | JNull => ret (mk_contentRef (out r) false)
    | _ =>
        s <- into_string val (out r) ;;
        ret (if attached r then mk_contentRef s true else r)
    end
  else ret r.

Definition jsonUnmarshalContent (input : JSON) (self : string)
    : result string :=
  match json_Unmarshal
          (into_struct "struct { Content *string }" contentRef_field input
             (mk_contentRef self true)) with
  | Ok r => Ok (out r)
  | Err err => Err err
  end.

Definition Decl_UnmarshalJSON (self : Decl) (input : JSON) : result Decl :=
  jsonUnmarshalContent input self.

Definition Comment_UnmarshalJSON (self : Comment) (input : JSON)
    : result Comment :=
  jsonUnmarshalContent input self.

Definition Text_UnmarshalJSON (self : Text) (input : JSON) : result Text :=
  jsonUnmarshalContent input self.

(** [Nodes.UnmarshalJSON]: [json.Unmarshal] into the same slice seen as a
    slice of [nodeDecoder], over the [UnmarshalJSON] of [nodeDecoder]. *)
Definition Nodes_UnmarshalJSON_with (nodeDecoder : JSON -> result Node)
    (self : Nodes) (input : JSON) : result Nodes :=
  json_Unmarshal
    (into_slice "[]xt.nodeDecoder" (into_Unmarshaler nodeDecoder) input self).

Definition Elem_field (nodeDecoder : JSON -> result Node)
    (key : string) (val : JSON) (e : Elem) : Unm Elem :=
  if field_match key "name"
  then n <- into_struct "xt.Name" Name_field val (Elem_Name e) ;;
       ret (mkElem n (Elem_Attrs e) (Elem_Nodes e))
  else if field_match key "attrs"
  then a <- into_slice "[]xt.Attr"
              (fun item =>
                 into_struct "xt.Attr" Attr_field item
                   (mkAttr (mkName "" "") ""))
              val (Elem_Attrs e) ;;
       ret (mkElem (Elem_Name e) a (Elem_Nodes e))
  else if field_match key "nodes"
  then ns <- into_Unmarshaler
               (Nodes_UnmarshalJSON_with nodeDecoder (Elem_Nodes e)) val ;;
       ret (mkElem (Elem_Name e) (Elem_Attrs e) ns)
  else ret e.

Definition fmap {A B} (f : A -> B) (r : result A) : result B :=
  match r with
  | Ok a => Ok (f a)
  | Err err => Err err
  end.

(** [nodeDecoder.UnmarshalJSON].  The value is [self.Node] after a call
    that returned no error; after an error the Go value holds a partly
    decoded node that callers do not use. *)
Fixpoint nodeDecoder_UnmarshalJSON (input : JSON) : result Node :=
  match json_Unmarshal
          (into_struct "xt.typeHead" typeHead_field input (mk_typeHead ""))
  with
  | Err err => Err err
  | Ok head =>
      if typeHead_Type head =? "" then Err (ErrTypeMissing input)
      else if typeHead_Type head =? TypePi then
        fmap NodePi
          (json_Unmarshal (into_struct "xt.Pi" Pi_field input (mkPi "" "")))
      else if typeHead_Type head =? TypeDecl then
        fmap NodeDecl (Decl_UnmarshalJSON "" input)
      else if typeHead_Type head =? TypeComment then
        fmap NodeComment (Comment_UnmarshalJSON "" input)
      else if typeHead_Type head =? TypeText then
        fmap NodeText (Text_UnmarshalJSON "" input)
      else if typeHead_Type head =? TypeElem then
        fmap NodeElem
          (json_Unmarshal
             (into_struct "xt.Elem" (Elem_field nodeDecoder_UnmarshalJSON)
                input Elem_zero))
      else Err (ErrUnrecognizedType (typeHead_Type head))
  end.

Definition Nodes_UnmarshalJSON (self : Nodes) (input : JSON) : result Nodes :=
  Nodes_UnmarshalJSON_with nodeDecoder_UnmarshalJSON self input.

(* ================================================================== *)
(** * Definitions used by the properties *)



(** Induction on trees: the children of an element satisfy the property. *)
Fixpoint Node_tree_ind (P : Node -> Prop)
    (HPi : forall val, P (NodePi val))
    (HDecl : forall val, P (NodeDecl val))
    (HComment : forall val, P (NodeComment val))
    (HText : forall val, P (NodeText val))
    (HElem : forall name attrs nodes,
        Forall P (elems nodes) -> P (NodeElem (mkElem name attrs nodes)))
    (node : Node) {struct node} : P node :=
  match node with
  | NodePi val => HPi val
  | NodeDecl val => HDecl val
  | NodeComment val => HComment val
  | NodeText val => HText val
  | NodeElem (mkElem name attrs nodes) =>
      HElem name attrs nodes
        (match nodes as s return Forall P (elems s) with
         | nil_slice => Forall_nil P
         | make_slice l =>
             (fix children (l : list Node) : Forall P l :=
                match l with
                | [] => Forall_nil P
                | x :: rest =>
                    Forall_cons x
                      (Node_tree_ind HPi HDecl HComment HText HElem x)
                      (children rest)
                end) l
         end)
  end.

(** The tokens of a tree in document order: every node in its stored
    position, every attribute list as stored; [tag] gives the name that the
    start and end tag of an element carry. *)
Fixpoint Node_tokens_with (tag : Name -> slice Attr -> Name) (node : Node)
    : list xml.Token :=
  match node with
  | NodePi val => [xml.ProcInst (Pi_Target val) (Pi_Content val)]
  | NodeDecl val => [xml.Directive val]
  | NodeComment val => [xml.Comment val]
  | NodeText val => [xml.CharData val]
  | NodeElem (mkElem name attrs nodes) =>
      xml.StartElement (Name_to (tag name attrs)) (attrsTo attrs)
      :: match nodes with
         | nil_slice => []
         | make_slice l => flat_map (Node_tokens_with tag) l
         end
      ++ [xml.EndElement (Name_to (tag name attrs))]
  end.


(** With the names as [Elem.MarshalXML] writes them. *)
Definition Node_written : Node -> list xml.Token :=
  Node_tokens_with Elem_effective_Name.

(** A tree that the markup encoder accepts: no empty target, no empty
    local name. *)
Fixpoint encodable (node : Node) : bool :=
  match node with
  | NodePi val => negb (Pi_Target val =? "")
  | NodeElem (mkElem name _ nodes) =>
      negb (Name_Local name =? "")
      && match nodes with
         | nil_slice => true
         | make_slice l => forallb encodable l
         end
  | _ => true
  end.

(** A sink that accepts every token. *)
Definition accepting : list xml.Token -> xml.Token -> option error :=
  fun _ _ => None.

(** What [Elem.MarshalXML] writes begins with the start tag [tag]: nothing
    else can come first, and it does come when the element has a local name
    and the sink accepts the tag. *)
Definition begins_with_start_tag
    (sink : list xml.Token -> xml.Token -> option error)
    (self : Elem) (enc : Encoder) (tag : xml.Name) : Prop :=
  let start := xml.StartElement tag (attrsTo (Elem_Attrs self)) in
  (forall enc' err,
      Elem_MarshalXML sink self enc = (enc', err) ->
      enc' = enc \/ exists rest, enc' = enc ++ start :: rest)
  /\ (Name_Local (Elem_Name self) <> "" -> sink enc start = None ->
      exists rest err,
        Elem_MarshalXML sink self enc = (enc ++ start :: rest, err)).




(** A slice that is [empty] when it has no elements. *)
Definition renil {A} (empty : slice A) (l : list A) : slice A :=
  match l with
  | [] => empty
  | _ => make_slice l
  end.

(** A tree with its slices rebuilt: the attributes of every element by
    [fa], the children of every element as [empty] when there are none. *)
Fixpoint Node_reslice (fa : slice Attr -> slice Attr) (empty : Nodes)
    (node : Node) : Node :=
  match node with
  | NodeElem (mkElem name attrs nodes) =>
      NodeElem
        (mkElem name (fa attrs)
           (renil empty
              match nodes with
              | nil_slice => []
              | make_slice l => map (Node_reslice fa empty) l
              end))
  | _ => node
  end.


(** The tree as it comes back from JSON: inside an element, a slice of
    length zero is nil. *)
Definition Node_omitempty : Node -> Node :=
  Node_reslice (fun attrs => renil nil_slice (elems attrs)) nil_slice.

(** The tokens of the source that are not end tokens. *)
Definition is_End (tok : xml.Token) : bool :=
  match tok with
  | xml.EndElement _ => true
  | _ => false
  end.

Definition content (toks : list xml.Token) : list xml.Token :=
  filter (fun tok => negb (is_End tok)) toks.


(** *** JSON documents of a tree, with or without the empty fields

    [Node_json present] is the JSON document of a tree in which an empty
    string field or an empty list field with key [key] is written (as [""]
    or as [[]]) when [present key] holds, and is left out otherwise.  The
    encoder of the package leaves all of them out. *)
Definition member_string (present : string -> bool) (key : string)
    (s : string) : list (string * JSON) :=
  if (s =? "") && negb (present key) then [] else [(key, JString s)].

Definition member_list (present : string -> bool) (key : string)
    (js : list JSON) : list (string * JSON) :=
  match js with
  | [] => if present key then [(key, JArray [])] else []
  | _ => [(key, JArray js)]
  end.

Definition Name_json (present : string -> bool) (n : Name) : JSON :=
  JObject (member_string present "space" (Name_Space n)
           ++ member_string present "local" (Name_Local n)).

Definition Attr_json (present : string -> bool) (a : Attr) : JSON :=
  JObject ([("name", Name_json present (Attr_Name a))]
           ++ member_string present "value" (Attr_Value a)).

Definition content_json (present : string -> bool) (typ content : string)
    : JSON :=
  JObject ([("type", JString typ)] ++ member_string present "content" content).

Fixpoint Node_json (present : string -> bool) (node : Node) : JSON :=
  match node with
  | NodePi val =>
      JObject ([("type", JString TypePi)]
               ++ member_string present "target" (Pi_Target val)
               ++ member_string present "content" (Pi_Content val))
  | NodeDecl val => content_json present TypeDecl val
  | NodeComment val => content_json present TypeComment val
  | NodeText val => content_json present TypeText val
  | NodeElem (mkElem name attrs nodes) =>
      JObject ([("type", JString TypeElem); ("name", Name_json present name)]
               ++ member_list present "attrs"
                    (map (Attr_json present) (elems attrs))
               ++ member_list present "nodes"
                    match nodes with
                    | nil_slice => []
                    | make_slice l => map (Node_json present) l
                    end)
  end.

Definition omitted : string -> bool := fun _ => false.

(** The slice that an absent or empty list field decodes to. *)
Definition empty_slice {A} (present : string -> bool) (key : string)
    : slice A :=
  if present key then make_slice [] else nil_slice.

(** The tree that the document [Node_json present] of a tree decodes to. *)
Definition Node_unmarshalled (present : string -> bool) : Node -> Node :=
  Node_reslice
    (fun attrs => renil (empty_slice present "attrs") (elems attrs))
    (empty_slice present "nodes").

(** The member of an object with exactly this key, if any. *)
Fixpoint member (key : string) (members : list (string * JSON))
    : option JSON :=
  match members with
  | [] => None
  | (k, v) :: rest => if k =? key then Some v else member key rest
  end.

(** The values of the members that select the field [name]. *)
Definition field_values (name : string) (members : list (string * JSON))
    : list JSON :=
  map snd (filter (fun kv => field_match (fst kv) name) members).

(** The discriminator of the dynamic type of a node. *)
Definition Node_type (node : Node) : string :=
  match node with
  | NodePi _ => TypePi
  | NodeDecl _ => TypeDecl
  | NodeComment _ => TypeComment
  | NodeText _ => TypeText
  | NodeElem _ => TypeElem
  end.

(** The values decoded into one string field, in order. *)
Fixpoint strings_range (vals : list JSON) (old : string) : Unm string :=
  match vals with
  | [] => ret old
  | v :: rest => s <- into_string v old ;; strings_range rest s
  end.






(** *** Further definitions *)


(** Why the markup encoder stopped with [err] before the token [tok], the
    encoder holding [enc]: the sink refused the token, or the token would
    have been a processing instruction without target or a start tag
    without local name. *)
Definition stopped_by (sink : list xml.Token -> xml.Token -> option error)
    (enc : Encoder) (tok : xml.Token) (err : error) : Prop :=
  sink enc tok = Some err
  \/ (err = ErrPiEmptyTarget /\ exists inst, tok = xml.ProcInst "" inst)
  \/ (err = ErrEmptyName "xt.Elem"
      /\ exists name attr,
          tok = xml.StartElement name attr /\ xml.Local name = "").

(** What a markup encoding call that started with [enc] and was to write
    [toks] has done when it returns [err] and leaves [enc']. *)
Definition written_up_to (sink : list xml.Token -> xml.Token -> option error)
    (enc enc' : Encoder) (err : option error) (toks : list xml.Token) : Prop :=
  match err with
  | None => enc' = enc ++ toks
  | Some e =>
      exists out tok rest,
        enc' = enc ++ out /\ toks = out ++ tok :: rest
        /\ stopped_by sink enc' tok e
  end.

(** The results of a decoding function on the items of a list, in order,
    or its first error. *)
Fixpoint each {A B} (f : A -> result B) (items : list A) : result (list B) :=
  match items with
  | [] => Ok []
  | item :: rest =>
      match f item with
      | Err err => Err err
      | Ok b =>
          match each f rest with
          | Err err => Err err
          | Ok bs => Ok (b :: bs)
          end
      end
  end.

(** The string that a string field holds after the values [vals] have been
    decoded into it, when they are strings or [null]. *)
Fixpoint last_string (vals : list JSON) (old : string) : string :=
  match vals with
  | [] => old
  | JString s :: rest => last_string rest s
  | _ :: rest => last_string rest old
  end.

Definition string_or_null (v : JSON) : Prop :=
  v = JNull \/ exists s, v = JString s.

(** The values [vals] of a member hold the string [s]: one member with
    that string, or no member and the empty string. *)
Definition holds (vals : list JSON) (s : string) : Prop :=
  vals = [JString s] \/ (vals = [] /\ s = "").

(** The values decoded through the pointer field of
    [jsonUnmarshalContent], in order. *)
Fixpoint content_range (vals : list JSON) (r : contentRef) : Unm contentRef :=
  match vals with
  | [] => ret r
  | v :: rest => r' <- contentRef_field "content" v r ;; content_range rest r'
  end.

(** An [UnmarshalJSON] method that reads the [content] member only: it
    sets the receiver to the string of that member, and keeps what the
    receiver held when the member is absent or [null]. *)
Definition reads_content (UnmarshalJSON : string -> JSON -> result string)
    : Prop :=
  forall members self,
    (field_values "content" members = [] ->
     UnmarshalJSON self (JObject members) = Ok self)
    /\ (field_values "content" members = [JNull] ->
        UnmarshalJSON self (JObject members) = Ok self)
    /\ (forall s,
           field_values "content" members = [JString s] ->
           UnmarshalJSON self (JObject members) = Ok s).


Definition xml_Name_eqb (n m : xml.Name) : bool :=
  (xml.Space n =? xml.Space m) && (xml.Local n =? xml.Local m).

(** A sequence of tokens is well nested under the open elements [opened]
    (innermost first): every end token closes the innermost open element
    and carries its name, and nothing is left open at the end. *)
Fixpoint well_nested (toks : list xml.Token) (opened : list xml.Name)
    : bool :=
  match toks with
  | [] => match opened with [] => true | _ => false end
  | xml.StartElement name _ :: rest => well_nested rest (name :: opened)
  | xml.EndElement name :: rest =>
      match opened with
      | [] => false
      | innermost :: outer =>
          xml_Name_eqb name innermost && well_nested rest outer
      end
  | _ :: rest => well_nested rest opened
  end.

(** A JSON value that is neither a string nor [null]. *)
Definition no_string (v : JSON) : bool :=
  match v with
  | JString _ | JNull => false
  | _ => true
  end.
(* ================================================================== *)
(** * Properties *)

(** ** The decoder terminates: the budget is never exhausted *)

Lemma fuel_mono (f : nat) :
  (forall self dec n a r,
      Elem_UnmarshalXML_fuel f self dec n a = Some r ->
      forall f', f <= f' -> Elem_UnmarshalXML_fuel f' self dec n a = Some r)
  /\ (forall self dec r,
         Elem_loop_fuel f self dec = Some r ->
         forall f', f <= f' -> Elem_loop_fuel f' self dec = Some r).
Proof.
  induction f as [|f [IHu IHl]]; split; intros; try discriminate.
  - destruct f' as [|f']; [lia|]. simpl in *. eapply IHl; eauto. lia.
  - destruct f' as [|f']; [lia|]. simpl in *.
    destruct (Token dec) as [[tok|err] dec1]; [|assumption].
    assert (Hstart : forall n a,
               match Nodes_DecodeToken_with (Elem_UnmarshalXML_fuel f Elem_zero)
                       (Elem_Nodes self) dec1 (xml.StartElement n a) with
               | None => None
               | Some (Err err, dec2) => Some (Err err, dec2)
               | Some (Ok nodes, dec2) =>
                   Elem_loop_fuel f
                     (mkElem (Elem_Name self) (Elem_Attrs self) nodes) dec2
               end = Some r ->
               match Nodes_DecodeToken_with (Elem_UnmarshalXML_fuel f' Elem_zero)
                       (Elem_Nodes self) dec1 (xml.StartElement n a) with
               | None => None
               | Some (Err err, dec2) => Some (Err err, dec2)
               | Some (Ok nodes, dec2) =>
                   Elem_loop_fuel f'
                     (mkElem (Elem_Name self) (Elem_Attrs self) nodes) dec2
               end = Some r).
    { intros n a. unfold Nodes_DecodeToken_with, DecodeToken_with.
      destruct (Elem_UnmarshalXML_fuel f Elem_zero dec1 n a)
        as [[res dec2]|] eqn:E; [|discriminate].
      rewrite (IHu _ _ _ _ _ E f') by lia.
      destruct res; [|trivial]. intros Hl. eapply IHl; eauto. lia. }
    destruct tok; try (apply Hstart; assumption); try assumption;
      simpl in *; eapply IHl; eauto; lia.
Qed.

Lemma fuel_enough (f : nat) :
  (forall self dec n a,
      2 * length dec + 2 <= f ->
      exists r dec', Elem_UnmarshalXML_fuel f self dec n a = Some (r, dec')
                     /\ length dec' <= length dec)
  /\ (forall self dec,
         2 * length dec + 1 <= f ->
         exists r dec', Elem_loop_fuel f self dec = Some (r, dec')
                        /\ length dec' <= length dec).
Proof.
  induction f as [|f [IHu IHl]]; split; intros; try lia.
  - simpl. apply IHl. lia.
  - simpl. destruct dec as [|[tok|err] dec1]; simpl in *.
    + eauto.
    + assert (Hother : forall node,
                 exists r dec',
                   Elem_loop_fuel f
                     (mkElem (Elem_Name self) (Elem_Attrs self)
                        (append (Elem_Nodes self) node)) dec1 = Some (r, dec')
                   /\ length dec' <= S (length dec1)).
      { intros node.
        destruct (IHl (mkElem (Elem_Name self) (Elem_Attrs self)
                         (append (Elem_Nodes self) node)) dec1)
          as (r & dec' & E & L); [lia|]. eauto. }
      destruct tok; unfold Nodes_DecodeToken_with, DecodeToken_with;
        try apply Hother; eauto.
      destruct (IHu Elem_zero dec1 name attr) as (r & dec2 & E & L); [lia|].
      rewrite E. destruct r as [elem|e]; [|eauto].
      destruct (IHl (mkElem (Elem_Name self) (Elem_Attrs self)
                       (append (Elem_Nodes self) (NodeElem elem))) dec2)
        as (r' & dec' & E' & L'); [lia|].
      rewrite E'. exists r', dec'. split; [reflexivity|lia].
    + destruct (errors_Is_EOF err); eauto.
Qed.

(** [Elem.UnmarshalXML] returns, and never puts tokens back. *)
Lemma Elem_UnmarshalXML_total self dec n a :
  exists r dec', Elem_UnmarshalXML self dec n a = Some (r, dec')
                 /\ length dec' <= length dec.
Proof.
  apply (proj1 (fuel_enough (budget dec))). unfold budget. lia.
Qed.



Lemma Elem_UnmarshalXML_fuel_stable f self dec n a :
  2 * length dec + 2 <= f ->
  Elem_UnmarshalXML_fuel f self dec n a = Elem_UnmarshalXML self dec n a.
Proof.
  intros H. destruct (Elem_UnmarshalXML_total self dec n a) as (r & dec' & E & _).
  rewrite E. eapply (proj1 (fuel_mono _)); eauto.
Qed.

(** [DecodeToken] returns, and never puts tokens back. *)
Lemma DecodeToken_total dec tok :
  exists r dec', DecodeToken dec tok = Some (r, dec')
                 /\ length dec' <= length dec.
Proof.
  unfold DecodeToken, DecodeToken_with. destruct tok; eauto.
  destruct (Elem_UnmarshalXML_total Elem_zero dec name attr)
    as (r & dec' & E & L).
  rewrite E. destruct r; eauto.
Qed.



Lemma Nodes_Decode_fuel_stable f :
  forall f' self dec,
    S (length dec) <= f -> S (length dec) <= f' ->
    Nodes_Decode_fuel f self dec = Nodes_Decode_fuel f' self dec.
Proof.
  induction f as [|f IH]; intros f' self dec Hf Hf'; [lia|].
  destruct f' as [|f']; [lia|]. cbn [Nodes_Decode_fuel].
  destruct dec as [|[tok|err] dec1]; cbn [Token]; try reflexivity.
  destruct (DecodeToken_total dec1 tok) as (r & dec2 & E & L).
  rewrite E. destruct r; [|reflexivity].
  simpl in Hf, Hf'. apply IH; lia.
Qed.

Lemma Nodes_Decode_eq self dec :
  Nodes_Decode self dec
  = match Token dec with
    | (Err err, dec1) =>
        if errors_Is_EOF err then Some (Ok self, dec1)
        else Some (Err err, dec1)
    | (Ok tok, dec1) =>
        match DecodeToken dec1 tok with
        | None => None
        | Some (Err err, dec2) => Some (Err err, dec2)
        | Some (Ok node, dec2) => Nodes_Decode (append self node) dec2
        end
    end.
Proof.
  unfold Nodes_Decode at 1. cbn [Nodes_Decode_fuel].
  destruct dec as [|[tok|err] dec1]; cbn [Token]; try reflexivity.
  destruct (DecodeToken_total dec1 tok) as (r & dec2 & E & L).
  rewrite E. destruct r; [|reflexivity].
  apply Nodes_Decode_fuel_stable; simpl; lia.
Qed.

(** [Nodes.Decode] returns. *)
Lemma Nodes_Decode_total dec :
  forall self, exists r dec', Nodes_Decode self dec = Some (r, dec')
                              /\ length dec' <= length dec.
Proof.
  assert (H : forall n dec, length dec <= n ->
              forall self, exists r dec',
                Nodes_Decode self dec = Some (r, dec')
                /\ length dec' <= length dec).
  { clear dec. induction n as [|n IH]; intros dec Hle self;
      rewrite Nodes_Decode_eq.
    - destruct dec; [|simpl in Hle; lia]. simpl. eauto.
    - destruct dec as [|[tok|err] dec1]; cbn [Token].
      + simpl. eauto.
      + destruct (DecodeToken_total dec1 tok) as (r & dec2 & E & L).
        rewrite E. simpl in Hle |- *.
        destruct r; [|exists (Err e), dec2; split; [reflexivity|lia]].
        destruct (IH dec2 ltac:(lia) (append self a)) as (r' & dec' & E' & L').
        rewrite E'. exists r', dec'. split; [reflexivity|lia].
      + destruct (errors_Is_EOF err); eexists _, dec1;
          (split; [reflexivity|simpl; lia]). }
  apply (H (length dec)). lia.
Qed.

(* ================================================================== *)
(** ** Markup encoder *)

Lemma hasExactAttr_In attrs space local value :
  hasExactAttr attrs space local value = true
  <-> In (mkAttr (mkName space local) value) (elems attrs).
Proof.
  unfold hasExactAttr. induction (elems attrs) as [|[[s l] v] rest IH]; simpl.
  - split; [discriminate|tauto].
  - destruct (s =? space) eqn:Es; simpl.
    2:{ rewrite IH. apply String.eqb_neq in Es.
        split; [tauto|intros [H|H]; [congruence|assumption]]. }
    destruct (l =? local) eqn:El; simpl.
    2:{ rewrite IH. apply String.eqb_neq in El.
        split; [tauto|intros [H|H]; [congruence|assumption]]. }
    destruct (v =? value) eqn:Ev.
    + apply String.eqb_eq in Es, El, Ev. subst. tauto.
    + rewrite IH. apply String.eqb_neq in Ev.
      split; [tauto|intros [H|H]; [congruence|assumption]].
Qed.

Section Written.

Variable sink : list xml.Token -> xml.Token -> option error.

Lemma EncodeToken_extends tok enc enc' err :
  EncodeToken sink tok enc = (enc', err) ->
  (err = None /\ enc' = enc ++ [tok]) \/ (err <> None /\ enc' = enc).
Proof.
  unfold EncodeToken. destruct (sink enc tok); intros [= <- <-].
  - right. split; congruence.
  - left. tauto.
Qed.

(** A loop of encoding steps that each write what they should writes the
    concatenation, or stops at the first error after a prefix of it. *)
Lemma range_Enc_written (body : Node -> Enc) (w : Node -> list xml.Token) l :
  Forall (fun x => forall enc enc' err,
              body x enc = (enc', err) ->
              exists out, enc' = enc ++ out /\ (err = None -> out = w x)) l ->
  forall enc enc' err,
    range_Enc body l enc = (enc', err) ->
    exists out, enc' = enc ++ out /\ (err = None -> out = flat_map w l).
Proof.
  induction 1 as [|x rest Hx _ IH]; simpl; intros enc enc' err.
  - intros [= <- <-]. exists []. rewrite app_nil_r. auto.
  - unfold and_then. destruct (body x enc) as [enc1 [e|]] eqn:E.
    + intros [= <- <-]. destruct (Hx _ _ _ E) as (out & -> & _).
      exists out. split; [reflexivity|discriminate].
    + intros H. destruct (Hx _ _ _ E) as (out & -> & Hout).
      destruct (IH _ _ _ H) as (out' & -> & Hout').
      exists (out ++ out'). rewrite app_assoc. split; [reflexivity|].
      intros ->. rewrite Hout, Hout'; reflexivity.
Qed.

(** The encoder only ever adds tokens, and on success it has added the
    tokens of the tree in document order. *)
Lemma Node_MarshalXML_written node :
  forall enc enc' err,
    Node_MarshalXML sink node enc = (enc', err) ->
    exists out, enc' = enc ++ out /\ (err = None -> out = Node_written node).
Proof.
  induction node as [val|val|val|val|name attrs nodes IH]
    using Node_tree_ind; intros enc enc' err; cbn [Node_MarshalXML].
  - unfold Pi_MarshalXML, fail.
    destruct (Pi_Target val =? "").
    + intros [= <- <-]. exists []. rewrite app_nil_r.
      split; [reflexivity|discriminate].
    + intros H. apply EncodeToken_extends in H as [[-> ->]|[Hn ->]].
      * eexists; split; reflexivity.
      * exists []. rewrite app_nil_r. split; [reflexivity|tauto].
  - intros H. apply EncodeToken_extends in H as [[-> ->]|[Hn ->]].
    + eexists; split; reflexivity.
    + exists []. rewrite app_nil_r. split; [reflexivity|tauto].
  - intros H. apply EncodeToken_extends in H as [[-> ->]|[Hn ->]].
    + eexists; split; reflexivity.
    + exists []. rewrite app_nil_r. split; [reflexivity|tauto].
  - intros H. apply EncodeToken_extends in H as [[-> ->]|[Hn ->]].
    + eexists; split; reflexivity.
    + exists []. rewrite app_nil_r. split; [reflexivity|tauto].
  - cbn [Elem_MarshalXML]. unfold fail.
    destruct (Name_Local name =? "").
    { intros [= <- <-]. exists []. rewrite app_nil_r.
      split; [reflexivity|discriminate]. }
    unfold and_then at 1.
    destruct (EncodeToken sink _ enc) as [enc1 e1] eqn:E1.
    apply EncodeToken_extends in E1 as [[-> ->]|[Hn ->]].
    2:{ destruct e1; [|congruence]. intros [= <- <-].
        exists []. rewrite app_nil_r. split; [reflexivity|discriminate]. }
    unfold and_then at 1.
    assert (Hch : forall enc0 enc0' err0,
               match nodes with
               | nil_slice => done
               | make_slice l => range_Enc (Node_MarshalXML sink) l
               end enc0 = (enc0', err0) ->
               exists out, enc0' = enc0 ++ out
                 /\ (err0 = None ->
                     out = match nodes with
                           | nil_slice => []
                           | make_slice l => flat_map Node_written l
                           end)).
    { destruct nodes as [|l]; simpl in IH.
      - unfold done. intros ? ? ? [= <- <-]. exists [].
        rewrite app_nil_r. auto.
      - apply range_Enc_written. exact IH. }
    destruct (match nodes with
              | nil_slice => done
              | make_slice l => range_Enc (Node_MarshalXML sink) l
              end _) as [enc2 e2] eqn:E2.
    destruct (Hch _ _ _ E2) as (out & -> & Hout).
    destruct e2.
    { intros [= <- <-]. eexists. rewrite <- !app_assoc.
      split; [reflexivity|discriminate]. }
    intros H. apply EncodeToken_extends in H as [[-> ->]|[Hn ->]].
    + eexists. rewrite <- !app_assoc. split; [reflexivity|].
      intros _. rewrite (Hout eq_refl). reflexivity.
    + eexists. rewrite <- !app_assoc. split; [reflexivity|tauto].
Qed.

Lemma Nodes_MarshalXML_written (self : Nodes) enc enc' err :
  Nodes_MarshalXML sink self enc = (enc', err) ->
  exists out, enc' = enc ++ out
              /\ (err = None -> out = flat_map Node_written (elems self)).
Proof.
  apply range_Enc_written. apply Forall_forall. intros x _.
  apply Node_MarshalXML_written.
Qed.

End Written.



(** C4.  Markup encoding of a processing instruction with an empty target
    and of an element with an empty local name fails, directly and through
    [enc.Encode], with an error whose message names the offending kind, and
    leaves the encoder as it was: no token has been written. *)
Theorem empty_name_rejected
    (sink : list xml.Token -> xml.Token -> option error) (enc : Encoder) :
  (forall content,
      Pi_MarshalXML sink (mkPi "" content) enc = (enc, Some ErrPiEmptyTarget)
      /\ Node_MarshalXML sink (NodePi (mkPi "" content)) enc
         = (enc, Some ErrPiEmptyTarget))
  /\ (forall space attrs nodes,
         Elem_MarshalXML sink (mkElem (mkName space "") attrs nodes) enc
         = (enc, Some (ErrEmptyName "xt.Elem"))
         /\ Node_MarshalXML sink
              (NodeElem (mkElem (mkName space "") attrs nodes)) enc
            = (enc, Some (ErrEmptyName "xt.Elem")))
  /\ Error ErrPiEmptyTarget
     = Some "can't encode XML processing instruction with empty target"
  /\ Error (ErrEmptyName "xt.Elem")
     = Some "can't XML-encode xt.Elem with empty name".
Proof.
  repeat split; reflexivity.
Qed.

Lemma Elem_MarshalXML_begins sink name attrs nodes enc :
  begins_with_start_tag sink (mkElem name attrs nodes) enc
    (Name_to (Elem_effective_Name name attrs)).
Proof.
  unfold begins_with_start_tag. cbn [Elem_Attrs Elem_Name].
  set (start := xml.StartElement _ _).
  assert (Hrest : forall enc1,
             exists rest err,
               and_then
                 match nodes with
                 | nil_slice => done
                 | make_slice l => range_Enc (Node_MarshalXML sink) l
                 end
                 (EncodeToken sink
                    (xml.End (Name_to (Elem_effective_Name name attrs))))
                 enc1 = (enc1 ++ rest, err)).
  { intros enc1.
    unfold and_then.
    destruct (match nodes with
              | nil_slice => done
              | make_slice l => range_Enc (Node_MarshalXML sink) l
              end enc1) as [enc2 e2] eqn:E2.
    assert (exists out, enc2 = enc1 ++ out) as [out ->].
    { destruct nodes as [|l].
      - injection E2 as <- <-. exists []. now rewrite app_nil_r.
      - change (Nodes_MarshalXML sink (make_slice l) enc1 = (enc2, e2)) in E2.
        apply Nodes_MarshalXML_written in E2 as (out & -> & _). eauto. }
    destruct e2; [eauto|].
    destruct (EncodeToken sink _ (enc1 ++ out)) as [enc3 e3] eqn:E3.
    apply EncodeToken_extends in E3 as [[-> ->]|[_ ->]].
    - rewrite <- app_assoc. eauto.
    - eauto. }
  split.
  - intros enc' err. cbn [Elem_MarshalXML]. unfold fail.
    destruct (Name_Local name =? ""); [intros [= <- <-]; auto|].
    unfold and_then at 1. fold start.
    destruct (EncodeToken sink start enc) as [enc1 e1] eqn:E1.
    apply EncodeToken_extends in E1 as [[-> ->]|[Hn ->]].
    + destruct (Hrest (enc ++ [start])) as (rest & err' & ->).
      intros [= <- <-]. right. exists rest. now rewrite <- app_assoc.
    + destruct e1; [|congruence]. intros [= <- <-]. auto.
  - intros Hlocal Hsink. cbn [Elem_MarshalXML].
    apply String.eqb_neq in Hlocal. rewrite Hlocal.
    unfold and_then at 1. fold start. unfold EncodeToken at 1.
    rewrite Hsink.
    destruct (Hrest (enc ++ [start])) as (rest & err' & ->).
    exists rest, err'. now rewrite <- app_assoc.
Qed.

(** C3.  An element whose attribute list holds the attribute named exactly
    (space [""], local ["xmlns"]) with the element's own [Name.Space] as
    value is written with a start tag whose name has the space cleared; an
    element without such an attribute is written with its stored name.  The
    receiver is a copy ([Elem_MarshalXML] returns no element), so the value
    of the caller keeps its [Name.Space]. *)
Theorem xmlns_suppression
    (sink : list xml.Token -> xml.Token -> option error)
    (name : Name) (attrs : slice Attr) (nodes : Nodes) (enc : Encoder) :
  let self := mkElem name attrs nodes in
  let xmlns := mkAttr (mkName "" "xmlns") (Name_Space name) in
  (In xmlns (elems attrs) ->
   begins_with_start_tag sink self enc (xml.mkName "" (Name_Local name)))
  /\ (~ In xmlns (elems attrs) ->
      begins_with_start_tag sink self enc
        (xml.mkName (Name_Space name) (Name_Local name))).
Proof.
  intros self xmlns.
  pose proof (Elem_MarshalXML_begins sink name attrs nodes enc) as H.
  unfold Elem_effective_Name in H.
  split; intros Hin.
  - apply hasExactAttr_In in Hin. rewrite Hin in H. exact H.
  - destruct (hasExactAttr attrs "" "xmlns" (Name_Space name)) eqn:E.
    + apply hasExactAttr_In in E. contradiction.
    + exact H.
Qed.

Lemma xmlns_suppression_witness :
  let xmlns := mkAttr (mkName "" "xmlns") "ns_outer" in
  let inlined := mkElem (mkName "ns_outer" "four") (make_slice [xmlns])
                   nil_slice in
  let aliased := mkElem (mkName "ns_outer" "four") (make_slice [])
                   nil_slice in
  (In xmlns (elems (Elem_Attrs inlined))
   /\ exists rest err,
       Elem_MarshalXML accepting inlined []
       = ([] ++ xml.StartElement (xml.mkName "" "four")
                  (attrsTo (Elem_Attrs inlined)) :: rest, err))
  /\ (~ In xmlns (elems (Elem_Attrs aliased))
      /\ exists rest err,
          Elem_MarshalXML accepting aliased []
          = ([] ++ xml.StartElement (xml.mkName "ns_outer" "four")
                     (attrsTo (Elem_Attrs aliased)) :: rest, err)).
Proof.
  intros xmlns inlined aliased.
  assert (Hin : In xmlns (elems (Elem_Attrs inlined))) by (left; reflexivity).
  assert (Hout : ~ In xmlns (elems (Elem_Attrs aliased))) by (intros []).
  split; (split; [assumption|]).
  - apply (proj1 (xmlns_suppression accepting (mkName "ns_outer" "four")
                    (make_slice [xmlns]) nil_slice []) Hin).
    + discriminate.
    + reflexivity.
  - apply (proj2 (xmlns_suppression accepting (mkName "ns_outer" "four")
                    (make_slice []) nil_slice []) Hout).
    + discriminate.
    + reflexivity.
Defined.

(* ================================================================== *)
(** ** Decoder *)






























(* ================================================================== *)
(** ** JSON codec *)

Lemma json_Marshal_range_map {A} (marshal : A -> result JSON) (f : A -> JSON) l :
  Forall (fun x => marshal x = Ok (f x)) l ->
  json_Marshal_range marshal l = Ok (map f l).
Proof.
  induction 1 as [|x rest Hx _ IH]; simpl; [reflexivity|].
  now rewrite Hx, IH.
Qed.

Lemma omitempty_string_omitted key s :
  omitempty_string key s = member_string omitted key s.
Proof.
  unfold omitempty_string, member_string, omitted.
  now rewrite andb_true_r.
Qed.

Lemma omitempty_slice_omitted {A} key (marshal : A -> result JSON) f s :
  Forall (fun x => marshal x = Ok (f x)) (elems s) ->
  omitempty_slice key marshal s
  = Ok (member_list omitted key (map f (elems s))).
Proof.
  intros H. destruct s as [|[|x l]]; try reflexivity.
  unfold omitempty_slice. cbn [elems] in H.
  now rewrite (json_Marshal_range_map _ _ H).
Qed.

Lemma json_Marshal_Attr_omitted a :
  json_Marshal_Attr a = Ok (Attr_json omitted a).
Proof.
  unfold json_Marshal_Attr, json_Marshal_Name, Attr_json, Name_json.
  now rewrite !omitempty_string_omitted.
Qed.

(** JSON encoding never fails, and writes the document of the tree with
    every empty field left out. *)
Lemma Node_MarshalJSON_omitted node :
  Node_MarshalJSON node = Ok (Node_json omitted node).
Proof.
  induction node as [val|val|val|val|name attrs nodes IH]
    using Node_tree_ind; cbn [Node_MarshalJSON Node_json].
  - unfold Pi_MarshalJSON, typeHead_members.
    now rewrite !omitempty_string_omitted.
  - unfold Decl_MarshalJSON, jsonMarshalContent, typeHead_members, content_json.
    now rewrite !omitempty_string_omitted.
  - unfold Comment_MarshalJSON, jsonMarshalContent, typeHead_members,
      content_json.
    now rewrite !omitempty_string_omitted.
  - unfold Text_MarshalJSON, jsonMarshalContent, typeHead_members,
      content_json.
    now rewrite !omitempty_string_omitted.
  - cbn [Elem_MarshalJSON]. unfold json_Marshal_Name, typeHead_members.
    rewrite (omitempty_slice_omitted "attrs" json_Marshal_Attr
               (Attr_json omitted)).
    2:{ apply Forall_forall. intros a _. apply json_Marshal_Attr_omitted. }
    rewrite (omitempty_slice_omitted "nodes" Node_MarshalJSON
               (Node_json omitted) nodes IH).
    rewrite !omitempty_string_omitted. unfold Name_json.
    destruct nodes; reflexivity.
Qed.


(** *** Evaluation of the decoder *)

Lemma nodeDecoder_UnmarshalJSON_eq input :
  nodeDecoder_UnmarshalJSON input
  = match json_Unmarshal
            (into_struct "xt.typeHead" typeHead_field input (mk_typeHead ""))
    with
    | Err err => Err err
    | Ok head =>
        if typeHead_Type head =? "" then Err (ErrTypeMissing input)
        else if typeHead_Type head =? TypePi then
          fmap NodePi
            (json_Unmarshal (into_struct "xt.Pi" Pi_field input (mkPi "" "")))
        else if typeHead_Type head =? TypeDecl then
          fmap NodeDecl (Decl_UnmarshalJSON "" input)
        else if typeHead_Type head =? TypeComment then
          fmap NodeComment (Comment_UnmarshalJSON "" input)
        else if typeHead_Type head =? TypeText then
          fmap NodeText (Text_UnmarshalJSON "" input)
        else if typeHead_Type head =? TypeElem then
          fmap NodeElem
            (json_Unmarshal
               (into_struct "xt.Elem" (Elem_field nodeDecoder_UnmarshalJSON)
                  input Elem_zero))
        else Err (ErrUnrecognizedType (typeHead_Type head))
    end.
Proof. destruct input; reflexivity. Qed.

Lemma members_range_app {T} (field : string -> JSON -> T -> Unm T) a b t saved :
  members_range field (a ++ b) t saved
  = match members_range field a t saved with
    | Abort err => Abort err
    | Done t' saved' => members_range field b t' saved'
    end.
Proof.
  revert t saved. induction a as [|[k v] a IH]; intros t saved; simpl.
  - reflexivity.
  - unfold bind. destruct (field k v t saved); [reflexivity|apply IH].
Qed.

(** Reading the head looks at the members that select [type] only. *)
Lemma typeHead_members_range members :
  forall head saved,
    members_range typeHead_field members head saved
    = match strings_range (field_values "type" members)
              (typeHead_Type head) saved with
      | Abort err => Abort err
      | Done s saved' => Done (mk_typeHead s) saved'
      end.
Proof.
  unfold field_values.
  induction members as [|[k v] rest IH]; intros [typ] saved; simpl.
  - reflexivity.
  - unfold typeHead_field at 1.
    destruct (field_match k "type"); simpl.
    + unfold bind. destruct (into_string v typ saved) as [e|s saved'];
        [reflexivity|]. simpl. apply IH.
    + unfold bind, ret. apply IH.
Qed.

Lemma field_values_app name a b :
  field_values name (a ++ b) = field_values name a ++ field_values name b.
Proof. unfold field_values. now rewrite filter_app, map_app. Qed.

Lemma field_values_member_string name present key s :
  field_match key name = false ->
  field_values name (member_string present key s) = [].
Proof.
  intros H. unfold member_string, field_values.
  destruct ((s =? "") && negb (present key)); simpl; [reflexivity|].
  now rewrite H.
Qed.

Lemma field_values_member_list name present key js :
  field_match key name = false ->
  field_values name (member_list present key js) = [].
Proof.
  intros H. unfold member_list, field_values.
  destruct js; [destruct (present key)|]; simpl; try reflexivity;
    now rewrite H.
Qed.

Ltac eval_field_match :=
  repeat match goal with
         | |- context [field_match ?k ?n] =>
             let b := eval vm_compute in (field_match k n) in
             change (field_match k n) with b
         end.

(** The head of the document of a tree holds the discriminator of the
    tree's kind. *)
Lemma Node_json_head present node :
  exists members,
    Node_json present node = JObject members
    /\ field_values "type" members = [JString (Node_type node)].
Proof.
  destruct node as [val|val|val|val|[name attrs nodes]];
    cbn [Node_json]; unfold content_json; eexists; (split; [reflexivity|]);
    rewrite ?field_values_app,
      ?field_values_member_string, ?field_values_member_list;
    reflexivity.
Qed.

Lemma json_Unmarshal_typeHead members s :
  field_values "type" members = [JString s] ->
  json_Unmarshal
    (into_struct "xt.typeHead" typeHead_field (JObject members)
       (mk_typeHead ""))
  = Ok (mk_typeHead s).
Proof.
  intros H. unfold json_Unmarshal. cbn [into_struct].
  rewrite typeHead_members_range, H. reflexivity.
Qed.

(** *** Decoding the document of a tree *)

Ltac eval_members :=
  cbn [app members_range andb negb];
  unfold bind, ret, Pi_field, contentRef_field, Name_field, Attr_field,
    Elem_field;
  eval_field_match;
  cbn [into_string out attached Pi_Target Pi_Content Name_Space Name_Local
         Attr_Name Attr_Value Elem_Name Elem_Attrs Elem_Nodes].

Lemma Pi_members present typ p saved :
  members_range Pi_field
    ([("type", JString typ)]
     ++ member_string present "target" (Pi_Target p)
     ++ member_string present "content" (Pi_Content p))
    (mkPi "" "") saved
  = Done p saved.
Proof.
  destruct p as [t c]. unfold member_string. cbn [Pi_Target Pi_Content].
  destruct (t =? "") eqn:Et; destruct (present "target");
    destruct (c =? "") eqn:Ec; destruct (present "content");
    eval_members; unfold ret;
    try (apply String.eqb_eq in Et; subst t);
    try (apply String.eqb_eq in Ec; subst c); reflexivity.
Qed.

Lemma content_members present typ s saved :
  members_range contentRef_field
    ([("type", JString typ)] ++ member_string present "content" s)
    (mk_contentRef "" true) saved
  = Done (mk_contentRef s true) saved.
Proof.
  unfold member_string.
  destruct (s =? "") eqn:Es; destruct (present "content");
    eval_members; unfold ret;
    try (apply String.eqb_eq in Es; subst s); reflexivity.
Qed.

Lemma Name_members present n saved :
  members_range Name_field
    (member_string present "space" (Name_Space n)
     ++ member_string present "local" (Name_Local n))
    (mkName "" "") saved
  = Done n saved.
Proof.
  destruct n as [s l]. unfold member_string. cbn [Name_Space Name_Local].
  destruct (s =? "") eqn:Es; destruct (present "space");
    destruct (l =? "") eqn:El; destruct (present "local");
    eval_members; unfold ret;
    try (apply String.eqb_eq in Es; subst s);
    try (apply String.eqb_eq in El; subst l); reflexivity.
Qed.

Lemma Attr_item present a saved :
  into_struct "xt.Attr" Attr_field (Attr_json present a)
    (mkAttr (mkName "" "") "") saved
  = Done a saved.
Proof.
  destruct a as [n v]. unfold Attr_json, Name_json, member_string at 3.
  cbn [Attr_Name Attr_Value into_struct].
  destruct (v =? "") eqn:Ev; destruct (present "value");
    eval_members; cbn [into_struct]; unfold bind, ret; rewrite Name_members;
    cbn [Attr_Name];
    try (apply String.eqb_eq in Ev; subst v); reflexivity.
Qed.

Lemma Attr_items present l saved :
  items_range
    (fun item =>
       into_struct "xt.Attr" Attr_field item (mkAttr (mkName "" "") ""))
    (map (Attr_json present) l) saved
  = Done l saved.
Proof.
  revert saved. induction l as [|a l IH]; intros saved; cbn [map items_range].
  - reflexivity.
  - unfold bind. rewrite Attr_item, IH. reflexivity.
Qed.

Lemma Node_items (decode : JSON -> result Node) (f : Node -> JSON)
    (g : Node -> Node) l saved :
  Forall (fun x => decode (f x) = Ok (g x)) l ->
  items_range (into_Unmarshaler decode) (map f l) saved
  = Done (map g l) saved.
Proof.
  intros H. revert saved.
  induction H as [|x l Hx _ IH]; intros saved; cbn [map items_range].
  - reflexivity.
  - unfold bind, into_Unmarshaler. rewrite Hx. unfold ret. rewrite IH.
    reflexivity.
Qed.

Lemma attrs_member decode present (attrs : slice Attr) name nodes saved :
  members_range (Elem_field decode)
    (member_list present "attrs" (map (Attr_json present) (elems attrs)))
    (mkElem name nil_slice nodes) saved
  = Done (mkElem name
            (renil (empty_slice present "attrs") (elems attrs)) nodes) saved.
Proof.
  unfold member_list, empty_slice.
  destruct (elems attrs) as [|a l] eqn:E; cbn [map renil].
  - destruct (present "attrs"); eval_members; reflexivity.
  - eval_members. cbn [into_slice]. unfold bind, ret.
    change (Attr_json present a :: map (Attr_json present) l)
      with (map (Attr_json present) (a :: l)).
    rewrite Attr_items. reflexivity.
Qed.

Lemma nodes_member decode present (f : Node -> JSON) (g : Node -> Node)
    l name attrs saved :
  Forall (fun x => decode (f x) = Ok (g x)) l ->
  f = Node_json present ->
  members_range (Elem_field decode)
    (member_list present "nodes" (map f l))
    (mkElem name attrs nil_slice) saved
  = Done (mkElem name attrs
            (renil (empty_slice present "nodes") (map g l))) saved.
Proof.
  intros H _. unfold member_list, empty_slice.
  destruct l as [|x l]; cbn [map renil].
  - destruct (present "nodes"); eval_members; reflexivity.
  - eval_members. unfold into_Unmarshaler, Nodes_UnmarshalJSON_with,
      json_Unmarshal. cbn [into_slice]. unfold bind, ret.
    change (f x :: map f l) with (map f (x :: l)).
    rewrite (Node_items decode f g None H). reflexivity.
Qed.

Lemma Elem_members decode present name attrs (l : list Node)
    (g : Node -> Node) saved :
  Forall (fun x => decode (Node_json present x) = Ok (g x)) l ->
  members_range (Elem_field decode)
    ([("type", JString TypeElem); ("name", Name_json present name)]
     ++ member_list present "attrs" (map (Attr_json present) (elems attrs))
     ++ member_list present "nodes" (map (Node_json present) l))
    Elem_zero saved
  = Done (mkElem name
            (renil (empty_slice present "attrs") (elems attrs))
            (renil (empty_slice present "nodes") (map g l))) saved.
Proof.
  intros H.
  change ([("type", JString TypeElem); ("name", Name_json present name)]
          ++ ?rest)
    with ([("type", JString TypeElem)]
          ++ [("name", Name_json present name)] ++ rest).
  assert (E1 : members_range (Elem_field decode)
                 [("type", JString TypeElem)] Elem_zero saved
               = Done Elem_zero saved) by (eval_members; reflexivity).
  assert (E2 : members_range (Elem_field decode)
                 [("name", Name_json present name)] Elem_zero saved
               = Done (mkElem name nil_slice nil_slice) saved).
  { unfold Elem_zero, Name_json. eval_members. cbn [into_struct].
    unfold bind, ret. rewrite Name_members. reflexivity. }
  rewrite members_range_app, E1. cbv beta iota.
  rewrite members_range_app, E2. cbv beta iota.
  rewrite members_range_app, attrs_member. cbv beta iota.
  apply nodes_member with (f := Node_json present); [exact H|reflexivity].
Qed.

(** The document of a tree, with any choice of the empty fields that are
    written, decodes; the result is the tree with the slices of length
    zero as the decoder makes them. *)
Lemma nodeDecoder_Node_json present node :
  nodeDecoder_UnmarshalJSON (Node_json present node)
  = Ok (Node_unmarshalled present node).
Proof.
  induction node as [val|val|val|val|name attrs nodes IH]
    using Node_tree_ind; rewrite nodeDecoder_UnmarshalJSON_eq;
    match goal with
    | |- context [Node_json present ?n] =>
        destruct (Node_json_head present n) as (members & Ej & Eh)
    end;
    rewrite Ej, (json_Unmarshal_typeHead _ Eh), <- Ej;
    cbn [typeHead_Type Node_type]; clear members Ej Eh.
  - change (TypePi =? "") with false. change (TypePi =? TypePi) with true.
    cbv iota. unfold json_Unmarshal. cbn [Node_json into_struct].
    rewrite Pi_members. reflexivity.
  - change (TypeDecl =? "") with false.
    change (TypeDecl =? TypePi) with false.
    change (TypeDecl =? TypeDecl) with true. cbv iota.
    unfold Decl_UnmarshalJSON, jsonUnmarshalContent, json_Unmarshal.
    cbn [Node_json]. unfold content_json. cbn [into_struct].
    rewrite content_members. reflexivity.
  - change (TypeComment =? "") with false.
    change (TypeComment =? TypePi) with false.
    change (TypeComment =? TypeDecl) with false.
    change (TypeComment =? TypeComment) with true. cbv iota.
    unfold Comment_UnmarshalJSON, jsonUnmarshalContent, json_Unmarshal.
    cbn [Node_json]. unfold content_json. cbn [into_struct].
    rewrite content_members. reflexivity.
  - change (TypeText =? "") with false.
    change (TypeText =? TypePi) with false.
    change (TypeText =? TypeDecl) with false.
    change (TypeText =? TypeComment) with false.
    change (TypeText =? TypeText) with true. cbv iota.
    unfold Text_UnmarshalJSON, jsonUnmarshalContent, json_Unmarshal.
    cbn [Node_json]. unfold content_json. cbn [into_struct].
    rewrite content_members. reflexivity.
  - change (TypeElem =? "") with false.
    change (TypeElem =? TypePi) with false.
    change (TypeElem =? TypeDecl) with false.
    change (TypeElem =? TypeComment) with false.
    change (TypeElem =? TypeText) with false.
    change (TypeElem =? TypeElem) with true. cbv iota.
    unfold json_Unmarshal. cbn [Node_json into_struct].
    replace (match nodes with
             | nil_slice => []
             | make_slice l => map (Node_json present) l
             end) with (map (Node_json present) (elems nodes))
      by (destruct nodes; reflexivity).
    rewrite (Elem_members nodeDecoder_UnmarshalJSON present name attrs
               (Node_unmarshalled present) None IH).
    unfold Node_unmarshalled. cbn [fmap Node_reslice].
    destruct nodes; reflexivity.
Qed.






(** *** Dispatch on the discriminator *)

Lemma nodeDecoder_head members vals :
  field_values "type" members = vals ->
  json_Unmarshal
    (into_struct "xt.typeHead" typeHead_field (JObject members)
       (mk_typeHead ""))
  = match strings_range vals "" None with
    | Abort err => Err err
    | Done _ (Some err) => Err err
    | Done s None => Ok (mk_typeHead s)
    end.
Proof.
  intros <-. unfold json_Unmarshal. cbn [into_struct].
  rewrite typeHead_members_range. cbn [typeHead_Type].
  destruct (strings_range _ "" None) as [e|s [e|]]; reflexivity.
Qed.

Lemma nodeDecoder_type_missing members :
  field_values "type" members = [] \/ field_values "type" members = [JString ""] ->
  nodeDecoder_UnmarshalJSON (JObject members)
  = Err (ErrTypeMissing (JObject members)).
Proof.
  intros [H|H]; rewrite nodeDecoder_UnmarshalJSON_eq,
    (nodeDecoder_head _ H); reflexivity.
Qed.



(** C9.  An object whose [type] member holds the empty string gives the
    error that the required field [type] is missing, with the input: the
    error of an object without a [type] member, and not the error
    [unrecognized node type]. *)
Theorem empty_type_is_missing (members : list (string * JSON)) :
  (field_values "type" members = [JString ""] ->
   nodeDecoder_UnmarshalJSON (JObject members)
   = Err (ErrTypeMissing (JObject members))
   /\ nodeDecoder_UnmarshalJSON (JObject members)
      <> Err (ErrUnrecognizedType ""))
  /\ (field_values "type" members = [] ->
      nodeDecoder_UnmarshalJSON (JObject members)
      = Err (ErrTypeMissing (JObject members))).
Proof.
  split; intros H.
  - rewrite nodeDecoder_type_missing by auto. split; [reflexivity|discriminate].
  - apply nodeDecoder_type_missing. auto.
Qed.

Lemma empty_type_is_missing_witness :
  nodeDecoder_UnmarshalJSON
    (JObject [("type", JString ""); ("content", JString "x")])
  = Err (ErrTypeMissing
           (JObject [("type", JString ""); ("content", JString "x")]))
  /\ nodeDecoder_UnmarshalJSON (JObject [("content", JString "x")])
     = Err (ErrTypeMissing (JObject [("content", JString "x")])).
Proof.
  split.
  - apply (proj1 (empty_type_is_missing
                    [("type", JString ""); ("content", JString "x")])).
    reflexivity.
  - apply (proj2 (empty_type_is_missing [("content", JString "x")])).
    reflexivity.
Defined.

(** *** Empty fields *)

Lemma member_app key a b :
  member key (a ++ b)
  = match member key a with
    | Some v => Some v
    | None => member key b
    end.
Proof.
  induction a as [|[k v] a IH]; simpl; [reflexivity|].
  destruct (k =? key); auto.
Qed.

Lemma member_omitempty_string key key' s :
  s = "" \/ (key' =? key) = false ->
  member key (omitempty_string key' s) = None.
Proof.
  unfold omitempty_string. intros [->|H]; [reflexivity|].
  destruct (s =? ""); simpl; [reflexivity|]. now rewrite H.
Qed.

Lemma member_member_list key key' js :
  js = [] \/ (key' =? key) = false ->
  member key (member_list omitted key' js) = None.
Proof.
  unfold member_list. intros [->|H]; [reflexivity|].
  destruct js; simpl; [reflexivity|]. now rewrite H.
Qed.

Lemma Elem_MarshalJSON_omitted e :
  Elem_MarshalJSON e = Ok (Node_json omitted (NodeElem e)).
Proof. apply (Node_MarshalJSON_omitted (NodeElem e)). Qed.

Lemma elems_renil {A} (empty : slice A) l :
  elems empty = [] -> elems (renil empty l) = l.
Proof. destruct l; auto. Qed.

Lemma Node_unmarshalled_omitempty present node :
  Node_omitempty (Node_unmarshalled present node) = Node_omitempty node.
Proof.
  induction node as [val|val|val|val|name attrs nodes IH]
    using Node_tree_ind; try reflexivity.
  unfold Node_omitempty, Node_unmarshalled in *. cbn [Node_reslice].
  f_equal. f_equal.
  - rewrite elems_renil; [reflexivity|].
    unfold empty_slice. destruct (present "attrs"); reflexivity.
  - f_equal.
    set (l := match nodes with
              | nil_slice => []
              | make_slice l => l
              end).
    assert (Hl : Forall
                   (fun x =>
                      Node_reslice
                        (fun attrs0 => renil nil_slice (elems attrs0))
                        nil_slice
                        (Node_reslice
                           (fun attrs0 =>
                              renil (empty_slice present "attrs")
                                (elems attrs0))
                           (empty_slice present "nodes") x)
                      = Node_reslice
                          (fun attrs0 => renil nil_slice (elems attrs0))
                          nil_slice x) l)
      by (destruct nodes; exact IH).
    replace (match nodes with
             | nil_slice => []
             | make_slice l0 =>
                 map (Node_reslice
                        (fun attrs0 =>
                           renil (empty_slice present "attrs") (elems attrs0))
                        (empty_slice present "nodes")) l0
             end)
      with (map (Node_reslice
                   (fun attrs0 =>
                      renil (empty_slice present "attrs") (elems attrs0))
                   (empty_slice present "nodes")) l)
      by (destruct nodes; reflexivity).
    replace (match nodes with
             | nil_slice => []
             | make_slice l0 =>
                 map (Node_reslice
                        (fun attrs0 => renil nil_slice (elems attrs0))
                        nil_slice) l0
             end)
      with (map (Node_reslice
                   (fun attrs0 => renil nil_slice (elems attrs0))
                   nil_slice) l)
      by (destruct nodes; reflexivity).
    clearbody l. clear IH.
    assert (Hr : forall (m : list Node),
               match renil (empty_slice present "nodes") m with
               | nil_slice => []
               | make_slice l0 =>
                   map (Node_reslice
                          (fun attrs0 => renil nil_slice (elems attrs0))
                          nil_slice) l0
               end
               = map (Node_reslice
                        (fun attrs0 => renil nil_slice (elems attrs0))
                        nil_slice) m).
    { intros [|y m]; [|reflexivity]. unfold empty_slice. cbn [renil].
      destruct (present "nodes"); reflexivity. }
    rewrite Hr, map_map. apply map_ext_Forall. exact Hl.
Qed.

Lemma Node_json_same_lists present present' node :
  present "attrs" = present' "attrs" ->
  present "nodes" = present' "nodes" ->
  Node_unmarshalled present node = Node_unmarshalled present' node.
Proof.
  intros Ha Hn. unfold Node_unmarshalled, empty_slice.
  now rewrite Ha, Hn.
Qed.

(** C8, amended.  JSON encoding leaves out every empty string field
    ([space], [local], [value], [target], [content]) and every attribute
    list and node list of length zero.  The document of a tree decodes
    whether its empty fields are left out or written as [""] and [[]]; for
    the string fields the decoded node is the same, [{"type":"text"}] and
    [{"type":"text","content":""}] both give [Text("")]; a list field that
    is left out gives a nil slice and one written as [[]] an empty slice
    that is not nil, so that the decoded nodes agree up to that. *)
Theorem empty_fields :
  (forall n,
      exists members,
        json_Marshal_Name n = Ok (JObject members)
        /\ (Name_Space n = "" -> member "space" members = None)
        /\ (Name_Local n = "" -> member "local" members = None))
  /\ (forall a,
         exists name members,
           json_Marshal_Attr a = Ok (JObject (("name", name) :: members))
           /\ (Attr_Value a = "" -> member "value" members = None))
  /\ (forall p,
         exists members,
           Pi_MarshalJSON p = Ok (JObject members)
           /\ (Pi_Target p = "" -> member "target" members = None)
           /\ (Pi_Content p = "" -> member "content" members = None))
  /\ (forall typ content,
         exists members,
           jsonMarshalContent typ content = Ok (JObject members)
           /\ (content = "" -> member "content" members = None))
  /\ (forall e,
         exists members,
           Elem_MarshalJSON e = Ok (JObject members)
           /\ (len (Elem_Attrs e) = 0 -> member "attrs" members = None)
           /\ (len (Elem_Nodes e) = 0 -> member "nodes" members = None))
  /\ (forall node, Node_MarshalJSON node = Ok (Node_json omitted node))
  /\ (forall present node,
         nodeDecoder_UnmarshalJSON (Node_json present node)
         = Ok (Node_unmarshalled present node)
         /\ Node_omitempty (Node_unmarshalled present node)
            = Node_omitempty node)
  /\ (forall present present' node,
         present "attrs" = present' "attrs" ->
         present "nodes" = present' "nodes" ->
         nodeDecoder_UnmarshalJSON (Node_json present node)
         = nodeDecoder_UnmarshalJSON (Node_json present' node))
  /\ nodeDecoder_UnmarshalJSON (JObject [("type", JString "text")])
     = Ok (NodeText "")
  /\ nodeDecoder_UnmarshalJSON
       (JObject [("type", JString "text"); ("content", JString "")])
     = Ok (NodeText "").
Proof.
  split; [|split; [|split; [|split; [|split; [|split; [|split; [|split]]]]]]].
  - intros n. eexists. split; [reflexivity|].
    split; intros H; rewrite member_app, !member_omitempty_string; auto.
  - intros a. eexists _, _. split; [reflexivity|].
    intros H. apply member_omitempty_string. auto.
  - intros p. eexists. split; [reflexivity|]. unfold typeHead_members.
    split; intros H; rewrite !member_app, !member_omitempty_string; auto.
  - intros typ content. eexists. split; [reflexivity|].
    unfold typeHead_members.
    intros H. rewrite !member_app, !member_omitempty_string; auto.
  - intros [name attrs nodes]. rewrite Elem_MarshalJSON_omitted.
    cbn [Node_json Elem_Attrs Elem_Nodes]. eexists. split; [reflexivity|].
    unfold len. split; intros H.
    + apply length_zero_iff_nil in H. rewrite H. cbn [map].
      rewrite !member_app, !member_member_list; auto.
    + assert (Hn : match nodes with
                   | nil_slice => []
                   | make_slice l => map (Node_json omitted) l
                   end = []).
      { destruct nodes as [|l]; [reflexivity|].
        apply length_zero_iff_nil in H. cbn [elems] in H. now subst l. }
      rewrite Hn, !member_app, !member_member_list; auto.
  - apply Node_MarshalJSON_omitted.
  - intros present node.
    split; [apply nodeDecoder_Node_json|apply Node_unmarshalled_omitempty].
  - intros present present' node Ha Hn. rewrite !nodeDecoder_Node_json.
    f_equal. now apply Node_json_same_lists.
  - split; reflexivity.
Qed.

Lemma empty_fields_witness :
  member "content"
    [("type", JString "text")] = None
  /\ nodeDecoder_UnmarshalJSON
       (Node_json (fun key => key =? "content") (NodeText ""))
     = nodeDecoder_UnmarshalJSON (Node_json omitted (NodeText "")).
Proof.
  split.
  - destruct (proj1 (proj2 (proj2 (proj2 empty_fields))) "text" "")
      as (members & E & H).
    injection E as <-. apply H. reflexivity.
  - apply (proj1 (proj2 (proj2 (proj2 (proj2 (proj2 (proj2
             (proj2 empty_fields))))))));
      reflexivity.
Defined.

(** C8 as stated fails for the list fields: an element with [attrs]
    written as [[]] and the same element without [attrs] decode to
    different values, the first with an empty [Attrs] that is not nil, the
    second with nil [Attrs]. *)
Lemma empty_attrs_present_or_absent_differ :
  let present := JObject [("type", JString "elem"); ("attrs", JArray [])] in
  let absent := JObject [("type", JString "elem")] in
  nodeDecoder_UnmarshalJSON present
  = Ok (NodeElem (mkElem (mkName "" "") (make_slice []) nil_slice))
  /\ nodeDecoder_UnmarshalJSON absent
     = Ok (NodeElem (mkElem (mkName "" "") nil_slice nil_slice))
  /\ nodeDecoder_UnmarshalJSON present <> nodeDecoder_UnmarshalJSON absent.
Proof.
  split; [reflexivity|]. split; [reflexivity|]. discriminate.
Qed.

(** C10.  A processing instruction with an empty target and an element
    with an empty local name are encoded as JSON, to an object tagged with
    their type, and that object decodes; markup encoding of the same value
    fails.  The restriction on empty names is the markup encoder's alone. *)
Theorem json_accepts_empty_names
    (sink : list xml.Token -> xml.Token -> option error) (enc : Encoder) :
  (forall content,
      let self := mkPi "" content in
      exists members,
        Pi_MarshalJSON self = Ok (JObject (("type", JString "pi") :: members))
        /\ nodeDecoder_UnmarshalJSON
             (JObject (("type", JString "pi") :: members))
           = Ok (NodePi self)
        /\ Pi_MarshalXML sink self enc = (enc, Some ErrPiEmptyTarget))
  /\ (forall space attrs nodes,
         let self := mkElem (mkName space "") attrs nodes in
         exists members,
           Elem_MarshalJSON self
           = Ok (JObject (("type", JString "elem") :: members))
           /\ nodeDecoder_UnmarshalJSON
                (JObject (("type", JString "elem") :: members))
              = Ok (Node_omitempty (NodeElem self))
           /\ Elem_MarshalXML sink self enc
              = (enc, Some (ErrEmptyName "xt.Elem"))).
Proof.
  split.
  - intros content self.
    pose proof (Node_MarshalJSON_omitted (NodePi self)) as E.
    pose proof (nodeDecoder_Node_json omitted (NodePi self)) as D.
    cbn [Node_MarshalJSON Node_json self] in E, D. subst self.
    eexists. split; [exact E|]. split; [exact D|reflexivity].
  - intros space attrs nodes self.
    pose proof (Elem_MarshalJSON_omitted self) as E.
    pose proof (nodeDecoder_Node_json omitted (NodeElem self)) as D.
    cbn [Node_json self] in E, D. subst self.
    eexists. split; [exact E|]. split; [exact D|reflexivity].
Qed.

(* ================================================================== *)
(** ** Order *)








(* ================================================================== *)
(** * Further properties *)

(** ** Markup encoder *)

Section Stops.

Variable sink : list xml.Token -> xml.Token -> option error.

Lemma written_up_to_nil enc : written_up_to sink enc enc None [].
Proof. unfold written_up_to. now rewrite app_nil_r. Qed.

Lemma EncodeToken_up_to tok enc enc' err :
  EncodeToken sink tok enc = (enc', err) ->
  written_up_to sink enc enc' err [tok].
Proof.
  unfold EncodeToken. destruct (sink enc tok) eqn:E; intros [= <- <-].
  - exists [], tok, []. rewrite app_nil_r.
    split; [reflexivity|]. split; [reflexivity|]. left. assumption.
  - reflexivity.
Qed.

(** Sequencing: what is written up to a failure of the first step, or
    after it up to a failure of the second. *)
Lemma and_then_up_to (m k : Enc) t1 t2 enc enc' err :
  (forall e1 e1' r1, m e1 = (e1', r1) -> written_up_to sink e1 e1' r1 t1) ->
  (forall e2 e2' r2, k e2 = (e2', r2) -> written_up_to sink e2 e2' r2 t2) ->
  and_then m k enc = (enc', err) ->
  written_up_to sink enc enc' err (t1 ++ t2).
Proof.
  intros Hm Hk. unfold and_then.
  destruct (m enc) as [enc1 [e|]] eqn:E1.
  - intros [= <- <-]. destruct (Hm _ _ _ E1) as (out & tok & rest & -> & -> & S).
    exists out, tok, (rest ++ t2). split; [reflexivity|].
    split; [now rewrite <- app_assoc|assumption].
  - intros E2. pose proof (Hm _ _ _ E1) as H1. cbn in H1. subst enc1.
    pose proof (Hk _ _ _ E2) as H2. destruct err as [e|]; cbn in H2 |- *.
    + destruct H2 as (out & tok & rest & -> & -> & S).
      exists (t1 ++ out), tok, rest. rewrite <- app_assoc in S.
      rewrite <- !app_assoc. auto.
    + now rewrite H2, app_assoc.
Qed.

Lemma range_Enc_up_to (body : Node -> Enc) (w : Node -> list xml.Token) l :
  Forall (fun x => forall enc enc' err,
              body x enc = (enc', err) ->
              written_up_to sink enc enc' err (w x)) l ->
  forall enc enc' err,
    range_Enc body l enc = (enc', err) ->
    written_up_to sink enc enc' err (flat_map w l).
Proof.
  induction 1 as [|x rest Hx _ IH]; cbn [range_Enc flat_map];
    intros enc enc' err.
  - intros [= <- <-]. apply written_up_to_nil.
  - apply and_then_up_to; assumption.
Qed.

Lemma Node_MarshalXML_up_to node :
  forall enc enc' err,
    Node_MarshalXML sink node enc = (enc', err) ->
    written_up_to sink enc enc' err (Node_written node).
Proof.
  induction node as [val|val|val|val|name attrs nodes IH]
    using Node_tree_ind; intros enc enc' err; cbn [Node_MarshalXML];
    try apply EncodeToken_up_to.
  - unfold Pi_MarshalXML, fail. destruct val as [target content].
    cbn [Pi_Target Pi_Content].
    destruct (target =? "") eqn:E; [|apply EncodeToken_up_to].
    apply String.eqb_eq in E. subst target. intros [= <- <-].
    exists [], (xml.ProcInst "" content), []. rewrite app_nil_r.
    split; [reflexivity|]. split; [reflexivity|]. right. left. eauto.
  - cbn [Elem_MarshalXML]. unfold fail, Node_written.
    cbn [Node_tokens_with]. fold Node_written.
    destruct (Name_Local name =? "") eqn:E.
    + apply String.eqb_eq in E. intros [= <- <-].
      eexists [], _, _. rewrite app_nil_r.
      split; [reflexivity|]. split; [reflexivity|]. right. right.
      split; [reflexivity|]. eexists _, _. split; [reflexivity|].
      unfold Elem_effective_Name.
      destruct (hasExactAttr _ _ _ _); exact E.
    + change (xml.StartElement ?n ?a :: ?l) with ([xml.StartElement n a] ++ l).
      apply and_then_up_to; [intros ? ? ?; apply EncodeToken_up_to|].
      intros ? ? ?.
      apply and_then_up_to; [|intros ? ? ?; apply EncodeToken_up_to].
      destruct nodes as [|l]; cbn [elems] in IH.
      * unfold done. intros ? ? ? [= <- <-]. apply written_up_to_nil.
      * apply range_Enc_up_to. exact IH.
Qed.

Lemma Nodes_MarshalXML_up_to (self : Nodes) enc enc' err :
  Nodes_MarshalXML sink self enc = (enc', err) ->
  written_up_to sink enc enc' err (flat_map Node_written (elems self)).
Proof.
  apply range_Enc_up_to. apply Forall_forall. intros x _.
  apply Node_MarshalXML_up_to.
Qed.

End Stops.

(** X1.  On every sink, [Nodes.MarshalXML] writes the tokens of the nodes in
    document order and nothing else: all of them when it returns no error,
    and otherwise the tokens before the first one that could not be
    written, the error being the sink's for that token or the error of an
    empty target or empty local name of that token. *)
Theorem Nodes_MarshalXML_stops_at_first_failure
    (sink : list xml.Token -> xml.Token -> option error)
    (self : Nodes) (enc enc' : Encoder) (err : option error) :
  Nodes_MarshalXML sink self enc = (enc', err) ->
  written_up_to sink enc enc' err (flat_map Node_written (elems self)).
Proof. apply Nodes_MarshalXML_up_to. Qed.

Lemma Nodes_MarshalXML_stops_at_first_failure_witness :
  let nodes := make_slice [NodeText "one"; NodePi (mkPi "" "two");
                           NodeText "three"] in
  Nodes_MarshalXML accepting nodes [] = ([xml.CharData "one"],
                                         Some ErrPiEmptyTarget)
  /\ written_up_to accepting [] [xml.CharData "one"] (Some ErrPiEmptyTarget)
       (flat_map Node_written (elems nodes)).
Proof.
  intros nodes. split; [reflexivity|].
  apply (Nodes_MarshalXML_stops_at_first_failure accepting nodes []).
  reflexivity.
Defined.

Lemma range_Enc_accepting_iff l :
  Forall (fun x => forall enc,
              snd (Node_MarshalXML accepting x enc) = None
              <-> encodable x = true) l ->
  forall enc,
    snd (range_Enc (Node_MarshalXML accepting) l enc) = None
    <-> forallb encodable l = true.
Proof.
  induction 1 as [|x rest Hx _ IH]; intros enc; cbn [range_Enc forallb].
  - split; reflexivity.
  - unfold and_then. specialize (Hx enc).
    destruct (Node_MarshalXML accepting x enc) as [enc1 [e|]]; cbn [snd] in *.
    + split; [discriminate|]. intros H.
      apply andb_true_iff in H as [H _]. apply Hx in H. discriminate.
    + rewrite IH, andb_true_iff. intuition.
Qed.

Lemma Node_MarshalXML_accepting_iff node :
  forall enc,
    snd (Node_MarshalXML accepting node enc) = None <-> encodable node = true.
Proof.
  induction node as [val|val|val|val|name attrs nodes IH]
    using Node_tree_ind; intros enc; cbn [Node_MarshalXML encodable];
    try (split; reflexivity).
  - unfold Pi_MarshalXML. destruct (Pi_Target val =? ""); cbn.
    + split; discriminate.
    + split; reflexivity.
  - cbn [Elem_MarshalXML].
    destruct (Name_Local name =? ""); cbn [negb andb].
    { split; discriminate. }
    unfold and_then at 1. cbn [EncodeToken accepting].
    unfold and_then at 1.
    assert (Hch : forall enc0,
               snd (match nodes with
                    | nil_slice => done
                    | make_slice l => range_Enc (Node_MarshalXML accepting) l
                    end enc0) = None
               <-> match nodes with
                   | nil_slice => true
                   | make_slice l => forallb encodable l
                   end = true).
    { destruct nodes as [|l]; [split; reflexivity|].
      apply range_Enc_accepting_iff. exact IH. }
    specialize (Hch (enc ++ [xml.StartElement
                               (Name_to (Elem_effective_Name name attrs))
                               (attrsTo attrs)])).
    destruct (match nodes with
              | nil_slice => done
              | make_slice l => range_Enc (Node_MarshalXML accepting) l
              end _) as [enc2 [e|]]; cbn [snd] in *.
    + rewrite <- Hch. split; discriminate.
    + rewrite <- Hch. split; reflexivity.
Qed.

(** X2.  With a sink that accepts every token, [Nodes.MarshalXML] returns no
    error exactly when no processing instruction of the nodes has an empty
    target and no element an empty local name, at any depth; an error it
    returns is one of those two. *)
Theorem Nodes_MarshalXML_succeeds_iff_encodable (self : Nodes) (enc : Encoder) :
  (snd (Nodes_MarshalXML accepting self enc) = None
   <-> forallb encodable (elems self) = true)
  /\ (forall err,
         snd (Nodes_MarshalXML accepting self enc) = Some err ->
         err = ErrPiEmptyTarget \/ err = ErrEmptyName "xt.Elem").
Proof.
  split.
  - apply range_Enc_accepting_iff. apply Forall_forall. intros x _.
    apply Node_MarshalXML_accepting_iff.
  - intros err H.
    destruct (Nodes_MarshalXML accepting self enc) as [enc' r] eqn:E.
    cbn [snd] in H. subst r.
    pose proof (Nodes_MarshalXML_up_to _ _ _ E) as U.
    destruct U as (out & tok & rest & _ & _ & [S|[[S _]|[S _]]]); auto.
    discriminate.
Qed.

Lemma Nodes_MarshalXML_succeeds_iff_encodable_witness :
  let nodes := make_slice
                 [NodeElem (mkElem (mkName "" "one") nil_slice
                              (make_slice [NodeElem Elem_zero]))] in
  snd (Nodes_MarshalXML accepting nodes []) = Some (ErrEmptyName "xt.Elem")
  /\ (ErrEmptyName "xt.Elem" = ErrPiEmptyTarget
      \/ ErrEmptyName "xt.Elem" = ErrEmptyName "xt.Elem").
Proof.
  intros nodes. split; [reflexivity|].
  apply (proj2 (Nodes_MarshalXML_succeeds_iff_encodable nodes [])).
  reflexivity.
Defined.

(** *** Encoding, decoding and encoding again *)













(** X4.  [hasExactAttr] holds exactly when some attribute of the list has
    the given space, local name and value, all three compared as whole
    strings; it fails on a nil and on an empty list. *)
Theorem hasExactAttr_exact_match (attrs : slice Attr)
    (space local value : string) :
  (hasExactAttr attrs space local value = true
   <-> exists attr,
        In attr (elems attrs)
        /\ Name_Space (Attr_Name attr) = space
        /\ Name_Local (Attr_Name attr) = local
        /\ Attr_Value attr = value)
  /\ (len attrs = 0 -> hasExactAttr attrs space local value = false).
Proof.
  split.
  - rewrite hasExactAttr_In. split.
    + intros H. eexists. split; [exact H|]. auto.
    + intros ([[s l] v] & H & <- & <- & <-). exact H.
  - unfold len, hasExactAttr. intros H.
    apply length_zero_iff_nil in H. now rewrite H.
Qed.

Lemma hasExactAttr_exact_match_witness :
  hasExactAttr nil_slice "" "xmlns" "ns_outer" = false
  /\ hasExactAttr
       (make_slice [mkAttr (mkName "xmlns" "outer") "ns_outer";
                    mkAttr (mkName "" "xmlns") "ns_outer"])
       "" "xmlns" "ns_outer" = true.
Proof.
  split.
  - apply (proj2 (hasExactAttr_exact_match nil_slice "" "xmlns" "ns_outer")).
    reflexivity.
  - apply (proj1 (hasExactAttr_exact_match _ "" "xmlns" "ns_outer")).
    exists (mkAttr (mkName "" "xmlns") "ns_outer").
    split; [right; left; reflexivity|]. auto.
Defined.

(** *** What is written is well nested *)

Lemma xml_Name_eqb_refl n : xml_Name_eqb n n = true.
Proof. unfold xml_Name_eqb. now rewrite !String.eqb_refl. Qed.

Lemma well_nested_written_list l :
  Forall (fun node => forall rest opened,
              well_nested (Node_written node ++ rest) opened
              = well_nested rest opened) l ->
  forall rest opened,
    well_nested (flat_map Node_written l ++ rest) opened
    = well_nested rest opened.
Proof.
  induction 1 as [|x l Hx _ IH]; intros rest opened; cbn [flat_map app].
  - reflexivity.
  - now rewrite <- app_assoc, Hx, IH.
Qed.

Lemma well_nested_written node :
  forall rest opened,
    well_nested (Node_written node ++ rest) opened = well_nested rest opened.
Proof.
  induction node as [val|val|val|val|name attrs nodes IH]
    using Node_tree_ind; intros rest opened; try reflexivity.
  unfold Node_written. cbn [Node_tokens_with]. fold Node_written.
  cbn [app well_nested]. rewrite <- app_assoc.
  assert (Hch : forall rest0 opened0,
             well_nested
               (match nodes with
                | nil_slice => []
                | make_slice l => flat_map Node_written l
                end ++ rest0) opened0
             = well_nested rest0 opened0).
  { destruct nodes as [|l]; [reflexivity|].
    apply well_nested_written_list. exact IH. }
  rewrite Hch. cbn [app well_nested]. now rewrite xml_Name_eqb_refl.
Qed.

(** X5.  What [Nodes.MarshalXML] has written when it returns no error is
    well nested: every start tag is closed, after the tokens of its
    children, by an end tag of the same name, the name with the space
    cleared included. *)
Theorem Nodes_MarshalXML_writes_well_nested
    (sink : list xml.Token -> xml.Token -> option error)
    (self : Nodes) (enc' : Encoder) :
  Nodes_MarshalXML sink self [] = (enc', None) ->
  well_nested enc' [] = true.
Proof.
  intros E. apply Nodes_MarshalXML_up_to in E. cbn in E. subst enc'.
  rewrite <- (app_nil_r (flat_map _ _)).
  rewrite well_nested_written_list; [reflexivity|].
  apply Forall_forall. intros x _. apply well_nested_written.
Qed.

Lemma Nodes_MarshalXML_writes_well_nested_witness :
  let xmlns := mkAttr (mkName "" "xmlns") "ns_outer" in
  let nodes := make_slice
                 [NodeElem (mkElem (mkName "ns_outer" "one")
                              (make_slice [xmlns])
                              (make_slice
                                 [NodeText "two";
                                  NodeElem (mkElem (mkName "ns_inner" "three")
                                              nil_slice nil_slice)]))] in
  exists enc',
    Nodes_MarshalXML accepting nodes [] = (enc', None)
    /\ well_nested enc' [] = true.
Proof.
  intros xmlns nodes. eexists. split; [reflexivity|].
  apply (Nodes_MarshalXML_writes_well_nested accepting nodes). reflexivity.
Defined.

(** ** Decoder *)






(** ** JSON codec *)

Lemma items_range_each (f : JSON -> result Node) items :
  forall saved,
    items_range (into_Unmarshaler f) items saved
    = match each f items with
      | Ok l => Done l saved
      | Err err => Abort err
      end.
Proof.
  induction items as [|item rest IH]; intros saved; cbn [items_range each].
  - reflexivity.
  - unfold bind, into_Unmarshaler. destruct (f item) as [n|e]; cbn.
    + unfold ret. rewrite IH. destruct (each f rest); reflexivity.
    + reflexivity.
Qed.

Lemma each_Ok {A B} (f : A -> result B) items l :
  each f items = Ok l -> Forall2 (fun item b => f item = Ok b) items l.
Proof.
  revert l. induction items as [|item rest IH]; intros l; cbn [each].
  - intros [= <-]. constructor.
  - destruct (f item) as [b|e] eqn:E; [|discriminate].
    destruct (each f rest) as [bs|e]; [|discriminate].
    intros [= <-]. constructor; auto.
Qed.

Lemma each_Err {A B} (f : A -> result B) items err :
  each f items = Err err ->
  exists good bad rest,
    items = good ++ bad :: rest
    /\ Forall (fun item => exists b, f item = Ok b) good
    /\ f bad = Err err.
Proof.
  induction items as [|item rest IH]; cbn [each]; [discriminate|].
  destruct (f item) as [b|e] eqn:E.
  - destruct (each f rest) as [bs|e]; [discriminate|].
    intros [= <-]. destruct (IH eq_refl) as (good & bad & rest' & -> & Hg & Hb).
    exists (item :: good), bad, rest'. split; [reflexivity|].
    split; [constructor; eauto|assumption].
  - intros [= <-]. exists [], item, rest. auto.
Qed.

Lemma Nodes_UnmarshalJSON_each self items :
  Nodes_UnmarshalJSON self (JArray items)
  = fmap make_slice (each nodeDecoder_UnmarshalJSON items).
Proof.
  unfold Nodes_UnmarshalJSON, Nodes_UnmarshalJSON_with, json_Unmarshal.
  cbn [into_slice]. unfold bind. rewrite items_range_each.
  destruct (each nodeDecoder_UnmarshalJSON items); reflexivity.
Qed.

(** X9.  [Nodes.UnmarshalJSON] of an array replaces the receiver by one node
    for every element of the array, in order, each the node that
    [nodeDecoder.UnmarshalJSON] gives for that element; it fails with the
    error of the first element that fails to decode.  [null] gives nil and
    the empty array an empty slice that is not nil, whatever the receiver
    held. *)
Theorem Nodes_UnmarshalJSON_in_order (self : Nodes) (items : list JSON) :
  (forall nodes,
      Nodes_UnmarshalJSON self (JArray items) = Ok nodes ->
      exists l,
        nodes = make_slice l
        /\ Forall2 (fun item node => nodeDecoder_UnmarshalJSON item = Ok node)
             items l)
  /\ (forall err,
         Nodes_UnmarshalJSON self (JArray items) = Err err ->
         exists good bad rest,
           items = good ++ bad :: rest
           /\ Forall (fun item =>
                        exists node, nodeDecoder_UnmarshalJSON item = Ok node)
                good
           /\ nodeDecoder_UnmarshalJSON bad = Err err)
  /\ Nodes_UnmarshalJSON self JNull = Ok nil_slice
  /\ Nodes_UnmarshalJSON self (JArray []) = Ok (make_slice []).
Proof.
  rewrite Nodes_UnmarshalJSON_each.
  split; [|split; [|split; reflexivity]].
  - intros nodes H.
    destruct (each nodeDecoder_UnmarshalJSON items) as [l|e] eqn:E;
      [|discriminate].
    injection H as <-. exists l. split; [reflexivity|]. now apply each_Ok.
  - intros err H.
    destruct (each nodeDecoder_UnmarshalJSON items) as [l|e] eqn:E;
      [discriminate|].
    injection H as <-. now apply each_Err.
Qed.

Lemma Nodes_UnmarshalJSON_in_order_witness :
  let items := [JObject [("type", JString "text"); ("content", JString "a")];
                JObject [("content", JString "b")];
                JObject [("type", JString "cdata")]] in
  Nodes_UnmarshalJSON nil_slice (JArray items)
  = Err (ErrTypeMissing (JObject [("content", JString "b")]))
  /\ exists good bad rest,
      items = good ++ bad :: rest
      /\ Forall (fun item =>
                   exists node, nodeDecoder_UnmarshalJSON item = Ok node) good
      /\ nodeDecoder_UnmarshalJSON bad
         = Err (ErrTypeMissing (JObject [("content", JString "b")])).
Proof.
  intros items. split; [reflexivity|].
  apply (proj1 (proj2 (Nodes_UnmarshalJSON_in_order nil_slice items))).
  reflexivity.
Defined.




(** *** Objects with members in any order *)

Lemma field_match_fold key name :
  field_match key name = true -> foldName key = foldName name.
Proof.
  unfold field_match. intros H. apply orb_true_iff in H as [H|H].
  - apply String.eqb_eq in H. now subst.
  - now apply String.eqb_eq in H.
Qed.

Lemma field_match_other key name name' :
  field_match key name = true ->
  foldName name <> foldName name' ->
  field_match key name' = false.
Proof.
  intros H Hne. destruct (field_match key name') eqn:E; [|reflexivity].
  apply field_match_fold in H, E. congruence.
Qed.

Lemma field_values_cons name key val rest :
  field_values name ((key, val) :: rest)
  = if field_match key name then val :: field_values name rest
    else field_values name rest.
Proof.
  unfold field_values. cbn [filter fst]. destruct (field_match key name);
    reflexivity.
Qed.

Lemma contentRef_members_range members :
  forall r saved,
    members_range contentRef_field members r saved
    = content_range (field_values "content" members) r saved.
Proof.
  induction members as [|[k v] rest IH]; intros r saved;
    rewrite ?field_values_cons; cbn [members_range content_range].
  - reflexivity.
  - unfold contentRef_field at 1.
    destruct (field_match k "content") eqn:E; cbn [content_range].
    + unfold contentRef_field at 2.
      change (field_match "content" "content") with true. cbv iota.
      unfold bind.
      destruct (match v with
                | JNull => ret (mk_contentRef (out r) false)
                | _ => _
                end saved); [reflexivity|apply IH].
    + unfold bind, ret. apply IH.
Qed.

Lemma jsonUnmarshalContent_reads_content :
  reads_content (fun self input => jsonUnmarshalContent input self).
Proof.
  intros members self. unfold jsonUnmarshalContent, json_Unmarshal.
  cbn [into_struct]. rewrite contentRef_members_range.
  split; [|split]; [intros -> ..|intros s ->]; reflexivity.
Qed.

(** X11.  [Decl.UnmarshalJSON], [Comment.UnmarshalJSON] and
    [Text.UnmarshalJSON] read the [content] member of the object and no
    other, the discriminator included: the receiver becomes the string of
    that member, and keeps its former content when the member is absent or
    [null]. *)
Theorem content_UnmarshalJSON_reads_content_only :
  reads_content Decl_UnmarshalJSON
  /\ reads_content Comment_UnmarshalJSON
  /\ reads_content Text_UnmarshalJSON.
Proof.
  split; [|split]; exact jsonUnmarshalContent_reads_content.
Qed.

Lemma content_UnmarshalJSON_reads_content_only_witness :
  Decl_UnmarshalJSON "old"
    (JObject [("type", JString "comment"); ("target", JString "x")])
  = Ok "old"
  /\ Text_UnmarshalJSON "old"
       (JObject [("Content", JString "new"); ("type", JString "pi")])
     = Ok "new".
Proof.
  split.
  - apply (proj1 (proj1 content_UnmarshalJSON_reads_content_only
                    [("type", JString "comment"); ("target", JString "x")]
                    "old")).
    reflexivity.
  - apply (proj2 (proj2 (proj2 (proj2 content_UnmarshalJSON_reads_content_only)
                           [("Content", JString "new"); ("type", JString "pi")]
                           "old"))).
    reflexivity.
Defined.

Lemma last_string_holds vals s : holds vals s -> last_string vals "" = s.
Proof. intros [->|[-> ->]]; reflexivity. Qed.

Lemma holds_string_or_null vals s : holds vals s -> Forall string_or_null vals.
Proof.
  intros [->|[-> _]]; [|constructor].
  constructor; [right; eauto|constructor].
Qed.

Lemma Pi_members_range members :
  Forall string_or_null (field_values "target" members) ->
  Forall string_or_null (field_values "content" members) ->
  forall p saved,
    members_range Pi_field members p saved
    = Done (mkPi (last_string (field_values "target" members) (Pi_Target p))
              (last_string (field_values "content" members) (Pi_Content p)))
        saved.
Proof.
  induction members as [|[k v] rest IH]; intros Ht Hc [t c] saved.
  - reflexivity.
  - rewrite !field_values_cons in *. cbn [members_range].
    unfold Pi_field at 1, bind. cbn [Pi_Target Pi_Content].
    destruct (field_match k "target") eqn:Et.
    + assert (Ec : field_match k "content" = false)
        by (eapply field_match_other; [exact Et|discriminate]).
      rewrite Ec in *.
      inversion Ht as [|? ? Hv Ht']; subst.
      destruct Hv as [->|[s ->]]; cbn [into_string ret last_string];
        unfold ret; rewrite IH by assumption; reflexivity.
    + destruct (field_match k "content") eqn:Ec.
      * inversion Hc as [|? ? Hv Hc']; subst.
        destruct Hv as [->|[s ->]]; cbn [into_string ret last_string];
          unfold ret; rewrite IH by assumption; reflexivity.
      * unfold ret. rewrite IH by assumption. reflexivity.
Qed.

(** X12.  The node that [nodeDecoder.UnmarshalJSON] gives for a [pi], [decl],
    [comment] or [text] object is determined by its [type], [target] and
    [content] members alone: the order of the members and any other
    members make no difference, and a missing [target] or [content] is the
    empty string. *)
Theorem scalar_nodes_decode_by_member (members : list (string * JSON)) :
  let input := JObject members in
  (forall target content,
      field_values "type" members = [JString TypePi] ->
      holds (field_values "target" members) target ->
      holds (field_values "content" members) content ->
      nodeDecoder_UnmarshalJSON input = Ok (NodePi (mkPi target content)))
  /\ (forall content,
         holds (field_values "content" members) content ->
         (field_values "type" members = [JString TypeDecl] ->
          nodeDecoder_UnmarshalJSON input = Ok (NodeDecl content))
         /\ (field_values "type" members = [JString TypeComment] ->
             nodeDecoder_UnmarshalJSON input = Ok (NodeComment content))
         /\ (field_values "type" members = [JString TypeText] ->
             nodeDecoder_UnmarshalJSON input = Ok (NodeText content))).
Proof.
  intros input. subst input. split.
  - intros target content Hty Ht Hc.
    rewrite nodeDecoder_UnmarshalJSON_eq, (json_Unmarshal_typeHead _ Hty).
    cbn [typeHead_Type].
    change (TypePi =? "") with false. change (TypePi =? TypePi) with true.
    cbv iota. unfold json_Unmarshal. cbn [into_struct].
    rewrite Pi_members_range by eauto using holds_string_or_null.
    cbn [Pi_Target Pi_Content fmap].
    now rewrite (last_string_holds Ht), (last_string_holds Hc).
  - intros content Hc.
    assert (Hread : jsonUnmarshalContent (JObject members) "" = Ok content).
    { destruct (jsonUnmarshalContent_reads_content members "")
        as (H0 & _ & H1).
      destruct Hc as [Hc|[Hc ->]]; auto. }
    split; [|split]; intros Hty;
      rewrite nodeDecoder_UnmarshalJSON_eq, (json_Unmarshal_typeHead _ Hty);
      cbn [typeHead_Type].
    + change (TypeDecl =? "") with false.
      change (TypeDecl =? TypePi) with false.
      change (TypeDecl =? TypeDecl) with true. cbv iota.
      unfold Decl_UnmarshalJSON. now rewrite Hread.
    + change (TypeComment =? "") with false.
      change (TypeComment =? TypePi) with false.
      change (TypeComment =? TypeDecl) with false.
      change (TypeComment =? TypeComment) with true. cbv iota.
      unfold Comment_UnmarshalJSON. now rewrite Hread.
    + change (TypeText =? "") with false.
      change (TypeText =? TypePi) with false.
      change (TypeText =? TypeDecl) with false.
      change (TypeText =? TypeComment) with false.
      change (TypeText =? TypeText) with true. cbv iota.
      unfold Text_UnmarshalJSON. now rewrite Hread.
Qed.

Lemma scalar_nodes_decode_by_member_witness :
  nodeDecoder_UnmarshalJSON
    (JObject [("content", JString "version=1"); ("extra", JBool true);
              ("type", JString "pi"); ("target", JString "xml")])
  = Ok (NodePi (mkPi "xml" "version=1"))
  /\ nodeDecoder_UnmarshalJSON
       (JObject [("note", JNull); ("type", JString "comment")])
     = Ok (NodeComment "").
Proof.
  split.
  - apply (proj1 (scalar_nodes_decode_by_member _) "xml" "version=1");
      [reflexivity|left; reflexivity|left; reflexivity].
  - assert (H : holds (field_values "content"
                         [("note", JNull); ("type", JString "comment")]) "")
      by (right; split; reflexivity).
    apply (proj1 (proj2 (proj2 (scalar_nodes_decode_by_member
                                  [("note", JNull);
                                   ("type", JString "comment")]) "" H))).
    reflexivity.
Defined.

(** *** Errors of child nodes *)
















(** *** Inputs without a usable discriminator *)

(** X14.  [nodeDecoder.UnmarshalJSON] decodes no node from an input without a
    discriminator it can read: [null], and an object whose [type] member
    is [null], give the error that the field [type] is missing, with the
    input; any other value that is not an object, and an object whose
    [type] member is not a string, give the type error of
    [encoding/json]. *)
Theorem unusable_discriminator :
  nodeDecoder_UnmarshalJSON JNull = Err (ErrTypeMissing JNull)
  /\ (forall input,
         match input with JNull | JObject _ => False | _ => True end ->
         nodeDecoder_UnmarshalJSON input
         = Err (ErrUnmarshalType (json_kind input) "xt.typeHead"))
  /\ (forall members,
         field_values "type" members = [JNull] ->
         nodeDecoder_UnmarshalJSON (JObject members)
         = Err (ErrTypeMissing (JObject members)))
  /\ (forall members v,
         field_values "type" members = [v] -> no_string v = true ->
         nodeDecoder_UnmarshalJSON (JObject members)
         = Err (ErrUnmarshalType (json_kind v) "string")).
Proof.
  split; [reflexivity|]. split; [|split].
  - intros input H. destruct input; try contradiction; reflexivity.
  - intros members H.
    rewrite nodeDecoder_UnmarshalJSON_eq, (nodeDecoder_head _ H). reflexivity.
  - intros members v H Hv.
    rewrite nodeDecoder_UnmarshalJSON_eq, (nodeDecoder_head _ H).
    destruct v; try discriminate; reflexivity.
Qed.

Lemma unusable_discriminator_witness :
  nodeDecoder_UnmarshalJSON (JArray [])
  = Err (ErrUnmarshalType "array" "xt.typeHead")
  /\ nodeDecoder_UnmarshalJSON
       (JObject [("content", JString "x"); ("type", JNumber "1")])
     = Err (ErrUnmarshalType "number" "string").
Proof.
  split.
  - apply (proj1 (proj2 unusable_discriminator) (JArray [])). exact I.
  - apply (proj2 (proj2 (proj2 unusable_discriminator))
             [("content", JString "x"); ("type", JNumber "1")]
             (JNumber "1")); reflexivity.
Defined.
